(** * ECC-demo: finite-field elliptic-curve arithmetic and ElGamal demo

    A shallow embedding of [src/utils/ecc.ts] and of the encryption and
    decryption handlers of [src/components/EncryptionDemo.tsx].

    - A JavaScript [bigint] is a [Z]; [/] and [%] on bigints truncate
      toward zero ([Z.quot], [Z.rem]) and throw a [RangeError] when the
      divisor is [0n].
    - A [bigint | null] field is an [option Z].
    - Thrown exceptions are values of [exn]; a function that may throw
      returns a [result].
    - The optional trace callback [log?: (s: string) => void] is an
      observer acting on a state of its own; functions that take it thread
      that state explicitly. *)

From Stdlib Require Import ZArith List String Ascii Lia Bool Zdivisibility.
From Stdlib Require Import DecimalString Zmod.
Import ListNotations.

Local Open Scope string_scope.
Local Open Scope Z_scope.

(** ** Exceptions and results *)

Inductive exn : Type :=
| Error (message : string)   (* [throw new Error(message)] *)
| RangeError                 (* bigint division by zero *)
| TypeError.                 (* a bigint mixed with a Number *)

Inductive result (A : Type) : Type :=
| Ok (v : A)
| Throw (e : exn).

Arguments Ok {A} v.
Arguments Throw {A} e.

Definition bind {A B : Type} (m : result A) (k : A -> result B) : result B :=
  match m with
  | Ok v => k v
  | Throw e => Throw e
  end.

Notation "x <- m ;; k" := (bind m (fun x => k))
  (at level 61, m at next level, right associativity).

(** ** Data model *)

Record Point : Type := mkPoint {
  x : option Z;
  y : option Z;
  isInfinity : bool
}.

Record CurveParams : Type := mkCurve {
  a : Z;
  b : Z;
  p : Z;
  G : Point;
  n : Z
}.

(** The literal [{ x: null, y: null, isInfinity: true }]. *)
Definition infinity : Point := mkPoint None None true.

Definition affine (px py : Z) : Point := mkPoint (Some px) (Some py) false.

Definition TOY_CURVE : CurveParams := mkCurve 1 6 11 (affine 2 4) 13.

Definition DEMO_CURVE : CurveParams := mkCurve 2 2 1021 (affine 5 195) 1039.

(** ** Bigint primitives *)

(** [u % v] on bigints. *)
Definition bigint_rem (u v : Z) : result Z :=
  if v =? 0 then Throw RangeError else Ok (Z.rem u v).

(** [u / v] on bigints. *)
Definition bigint_div (u v : Z) : result Z :=
  if v =? 0 then Throw RangeError else Ok (Z.quot u v).

(** Rendering of a bigint in a template literal. *)
Definition show (z : Z) : string := NilZero.string_of_int (Z.to_int z).

(** Rendering of a [bigint | null] in a template literal. *)
Definition show_opt (v : option Z) : string :=
  match v with
  | Some z => show z
  | None => "null"
  end.

Fixpoint binary_digits (q : positive) : string :=
  match q with
  | xH => "1"
  | xO q' => binary_digits q' ++ "0"
  | xI q' => binary_digits q' ++ "1"
  end.

(** [k.toString(2)]. *)
Definition toString2 (k : Z) : string :=
  match k with
  | Z0 => "0"
  | Zpos q => binary_digits q
  | Zneg q => "-" ++ binary_digits q
  end.

(** ** Modular arithmetic helpers *)

(** [mod] ([mod] is a reserved word here): [((n % p) + p) % p]. *)
Definition mod_ (u m : Z) : result Z :=
  r1 <- bigint_rem u m ;;
  bigint_rem (r1 + m) m.

(** State of the extended Euclidean loop of [modInverse]. *)
Record egcd : Type := mkEgcd {
  old_r : Z; r : Z;
  old_s : Z; s : Z;
  old_t : Z; t : Z
}.

(** One turn of the body of [while (r !== 0n)]; the division cannot throw
    because the body only runs with [r <> 0]. *)
Definition egcd_step (st : egcd) : egcd :=
  let quotient := Z.quot st.(old_r) st.(r) in
  mkEgcd st.(r) (st.(old_r) - quotient * st.(r))
         st.(s) (st.(old_s) - quotient * st.(s))
         st.(t) (st.(old_t) - quotient * st.(t)).

(** The [while] loop, run for at most [fuel] turns. *)
Fixpoint egcd_loop (fuel : nat) (st : egcd) : egcd :=
  match fuel with
  | O => st
  | S fuel' => if st.(r) =? 0 then st else egcd_loop fuel' (egcd_step st)
  end.

(** Bound on the number of turns: every turn strictly decreases [|r|],
    which starts at [|m|] ([egcd_loop_exits] shows the loop has left by
    then). *)
Definition egcd_fuel (m : Z) : nat := S (Z.abs_nat m).

Definition NO_INVERSE : string := "模逆元不存在".

Definition modInverse (u m : Z) : result Z :=
  let st := egcd_loop (egcd_fuel m) (mkEgcd u m 1 0 0 1) in
  if negb (st.(old_r) =? 1) then Throw (Error NO_INVERSE)
  else mod_ st.(old_s) m.

(** The loop of [modPow] for [e > 0], by recursion on the binary digits of
    [e], least significant first: [e % 2n === 1n] tests the low digit and
    [e /= 2n] drops it ([modPow_while_unfold] states the loop equation on
    integers). *)
Fixpoint modPow_loop (e : positive) (res base m : Z) : result Z :=
  match e with
  | xH =>
      res' <- mod_ (res * base) m ;;
      _ <- mod_ (base * base) m ;;
      Ok res'
  | xI e' =>
      res' <- mod_ (res * base) m ;;
      base' <- mod_ (base * base) m ;;
      modPow_loop e' res' base' m
  | xO e' =>
      base' <- mod_ (base * base) m ;;
      modPow_loop e' res base' m
  end.

(** [while (e > 0n) { ... }] from the state [(res, base, e)]. *)
Definition modPow_while (res base e m : Z) : result Z :=
  match e with
  | Zpos q => modPow_loop q res base m
  | _ => Ok res
  end.

Definition modPow (base exp m : Z) : result Z :=
  base' <- mod_ base m ;;
  modPow_while 1 base' exp m.

(** [for (let i = 1n; i < p; i++)] of [modSqrt], with [count] turns left. *)
Fixpoint modSqrt_search (count : nat) (i u m : Z) : result (option Z) :=
  match count with
  | O => Ok None
  | S count' =>
      sq <- mod_ (i * i) m ;;
      if sq =? u then Ok (Some i) else modSqrt_search count' (i + 1) u m
  end.

Definition modSqrt (u m : Z) : result (option Z) :=
  u' <- mod_ u m ;;
  m4 <- bigint_rem m 4 ;;
  if m4 =? 3 then
    r0 <- modPow u' ((m + 1) ÷ 4) m ;;
    sq <- mod_ (r0 * r0) m ;;
    if sq =? u' then Ok (Some r0) else Ok None
  else modSqrt_search (Z.to_nat (m - 1)) 1 u' m.

(** ** Point arithmetic *)

(** Computations that may call the trace callback: the observer's state of
    type [Obs] is threaded through, next to the result or the exception. *)
Section Traced.

Context {Obs : Type}.

Definition M (A : Type) : Type := Obs -> result A * Obs.

Definition ret {A : Type} (v : A) : M A := fun st => (Ok v, st).

Definition lift {A : Type} (m : result A) : M A := fun st => (m, st).

Definition bindM {A B : Type} (m : M A) (k : A -> M B) : M B :=
  fun st =>
    match m st with
    | (Ok v, st') => k v st'
    | (Throw e, st') => (Throw e, st')
    end.

(** The type of [log]: [(s: string) => void], or omitted. A callback is an
    observer: it returns normally and acts on its own state only. *)
Definition callback : Type := option (string -> Obs -> Obs).

(** [log?.(s)]. *)
Definition emit (log : callback) (s : string) : M unit :=
  fun st =>
    match log with
    | Some f => (Ok tt, f s st)
    | None => (Ok tt, st)
    end.

End Traced.

Arguments M : clear implicits.
Arguments callback : clear implicits.

Notation "x <~ m ;; k" := (bindM m (fun x => k))
  (at level 61, m at next level, right associativity).

Definition VERTICAL_LINE : string := "P + Q = 无穷远点 (垂直线)".

Definition doubling_line (x1 ca y1 num den cp lambda : Z) : string :=
  "倍点 P: λ = (3*" ++ show x1 ++ "^2 + " ++ show ca ++ ") / (2*" ++ show y1
  ++ ") = " ++ show num ++ " * " ++ show den ++ " mod " ++ show cp
  ++ " = " ++ show lambda.

Definition addition_line (y2 y1 x2 x1 num den cp lambda : Z) : string :=
  "点加 P+Q: λ = (" ++ show y2 ++ " - " ++ show y1 ++ ") / (" ++ show x2
  ++ " - " ++ show x1 ++ ") = " ++ show num ++ " * " ++ show den ++ " mod "
  ++ show cp ++ " = " ++ show lambda.

Definition result_line (x3 y3 : Z) : string :=
  "结果: (" ++ show x3 ++ ", " ++ show y3 ++ ")".

Section PointArithmetic.

Context {Obs : Type}.

(** The common tail of [pointAdd], once the slope is known. *)
Definition pointAdd_finish (x1 y1 x2 lambda cp : Z) (log : callback Obs)
  : M Obs Point :=
  x3 <~ lift (mod_ (lambda * lambda - x1 - x2) cp) ;;
  y3 <~ lift (mod_ (lambda * (x1 - x3) - y1) cp) ;;
  _ <~ emit log (result_line x3 y3) ;;
  ret (mkPoint (Some x3) (Some y3) false).

(** [pointAdd(P, Q, curve, log?)]. The guard
    [!P.x || !P.y || !Q.x || !Q.y] holds for a [null] coordinate and also
    for the bigint [0n], which is falsy. *)
Definition pointAdd (P Q : Point) (curve : CurveParams) (log : callback Obs)
  : M Obs Point :=
  if P.(isInfinity) then ret Q
  else if Q.(isInfinity) then ret P
  else
    match P.(x), P.(y), Q.(x), Q.(y) with
    | Some x1, Some y1, Some x2, Some y2 =>
        if (x1 =? 0) || (y1 =? 0) || (x2 =? 0) || (y2 =? 0) then ret infinity
        else
          let cp := curve.(p) in
          let ca := curve.(a) in
          if (x1 =? x2) && negb (y1 =? y2) then
            _ <~ emit log VERTICAL_LINE ;;
            ret infinity
          else if (x1 =? x2) && (y1 =? y2) then
            if y1 =? 0 then ret infinity
            else
              num <~ lift (mod_ (3 * x1 * x1 + ca) cp) ;;
              den <~ lift (modInverse (2 * y1) cp) ;;
              lambda <~ lift (mod_ (num * den) cp) ;;
              _ <~ emit log (doubling_line x1 ca y1 num den cp lambda) ;;
              pointAdd_finish x1 y1 x2 lambda cp log
          else
            num <~ lift (mod_ (y2 - y1) cp) ;;
            dx <~ lift (mod_ (x2 - x1) cp) ;;
            den <~ lift (modInverse dx cp) ;;
            lambda <~ lift (mod_ (num * den) cp) ;;
            _ <~ emit log (addition_line y2 y1 x2 x1 num den cp lambda) ;;
            pointAdd_finish x1 y1 x2 lambda cp log
    | _, _, _, _ => ret infinity
    end.

Definition multiply_header (k : Z) (bits : string) : string :=
  "标量乘法: k=" ++ show k ++ " (二进制: " ++ bits ++ ")".

Definition bit_line (pos : nat) : string :=
  "第 2^" ++ show (Z.of_nat pos) ++ " 位是 1。将当前点 N 加到结果中。".

Definition DOUBLE_LINE : string := "为下一位对 N 进行倍点运算。".

(** The [for] loop of [pointMultiply] over the characters of [bits] from
    the last to the first; [pos] is [bits.length - 1 - i]. The two inner
    calls of [pointAdd] pass no callback. *)
Fixpoint pointMultiply_loop (chars : list ascii) (pos : nat) (R N : Point)
    (curve : CurveParams) (log : callback Obs) : M Obs Point :=
  match chars with
  | [] => ret R
  | c :: rest =>
      R' <~ (if Ascii.eqb c "1"%char then
               _ <~ emit log (bit_line pos) ;;
               pointAdd R N curve None
             else ret R) ;;
      _ <~ emit log DOUBLE_LINE ;;
      N' <~ pointAdd N N curve None ;;
      pointMultiply_loop rest (S pos) R' N' curve log
  end.

(** [pointMultiply(k, P, curve, log?)]. *)
Definition pointMultiply (k : Z) (P : Point) (curve : CurveParams)
    (log : callback Obs) : M Obs Point :=
  let bits := toString2 k in
  _ <~ emit log (multiply_header k bits) ;;
  pointMultiply_loop (rev (list_ascii_of_string bits)) 0%nat infinity P
                     curve log.

End PointArithmetic.

(** The result of a traced computation run without an observer. *)
Definition run {A : Type} (m : M unit A) : result A := fst (m tt).

(** ** Encryption and embedding helpers *)

Definition isValidX (x0 : Z) (curve : CurveParams) : result (bool * option Z) :=
  rhs <- mod_ (x0 ^ 3 + curve.(a) * x0 + curve.(b)) curve.(p) ;;
  y0 <- modSqrt rhs curve.(p) ;;
  Ok (match y0 with Some _ => true | None => false end, y0).

Definition EMBED_KOBLITZ_FAILED : string := "无法嵌入消息 (Koblitz)".

(** [for (let j = 0n; j < K; j++)] of [embedMessageKoblitz], with [count]
    turns left. *)
Fixpoint embedMessageKoblitz_loop (count : nat) (j message : Z)
    (curve : CurveParams) (K : Z) : result Point :=
  match count with
  | O => Throw (Error EMBED_KOBLITZ_FAILED)
  | S count' =>
      let x0 := message * K + j in
      v <- isValidX x0 curve ;;
      match v with
      | (true, Some y0) => Ok (mkPoint (Some x0) (Some y0) false)
      | _ => embedMessageKoblitz_loop count' (j + 1) message curve K
      end
  end.

Definition embedMessageKoblitz (message : Z) (curve : CurveParams) (K : Z)
  : result Point :=
  embedMessageKoblitz_loop (Z.to_nat K) 0 message curve K.

Definition INVALID_POINT : string := "无效点".

Definition unembedMessageKoblitz (P : Point) (K : Z) : result Z :=
  if P.(isInfinity) then Throw (Error INVALID_POINT)
  else
    match P.(x) with
    | None => Throw (Error INVALID_POINT)
    | Some px => bigint_div px K
    end.

Definition EMBED_DIRECT_FAILED : string := "无法嵌入消息 (直接搜索)".

(** [while (offset < 100n)] of [embedMessageDirect], with [count] turns
    left. *)
Fixpoint embedMessageDirect_loop (count : nat) (offset message : Z)
    (curve : CurveParams) : result (Point * Z) :=
  match count with
  | O => Throw (Error EMBED_DIRECT_FAILED)
  | S count' =>
      let x0 := message + offset in
      v <- isValidX x0 curve ;;
      match v with
      | (true, Some y0) => Ok (mkPoint (Some x0) (Some y0) false, offset)
      | _ => embedMessageDirect_loop count' (offset + 1) message curve
      end
  end.

Definition embedMessageDirect (message : Z) (curve : CurveParams)
  : result (Point * Z) :=
  embedMessageDirect_loop 100%nat 0 message curve.

(** ** The ElGamal handlers of [EncryptionDemo] *)

Inductive method : Type := koblitz | direct.

(** The component state the key, encryption and decryption handlers read
    and write ([useState] cells). *)
Record DemoState : Type := mkDemo {
  privKey : Z;
  pubKey : option Point;
  embeddingMethod : method;
  embeddedPoint : option Point;
  randomK : Z;
  cipherC1 : option Point;
  cipherC2 : option Point;
  encryptLogs : list string;
  decryptedPoint : option Point;
  decryptedMsg : string;
  decryptLogs : list string
}.

Definition update (f : DemoState -> DemoState) : M DemoState unit :=
  fun st => (Ok tt, f st).

Definition setPubKey (v : Point) : M DemoState unit :=
  update (fun st =>
    mkDemo st.(privKey) (Some v) st.(embeddingMethod) st.(embeddedPoint)
           st.(randomK) st.(cipherC1) st.(cipherC2) st.(encryptLogs)
           st.(decryptedPoint) st.(decryptedMsg) st.(decryptLogs)).

Definition setCipherC1 (v : Point) : M DemoState unit :=
  update (fun st =>
    mkDemo st.(privKey) st.(pubKey) st.(embeddingMethod) st.(embeddedPoint)
           st.(randomK) (Some v) st.(cipherC2) st.(encryptLogs)
           st.(decryptedPoint) st.(decryptedMsg) st.(decryptLogs)).

Definition setCipherC2 (v : Point) : M DemoState unit :=
  update (fun st =>
    mkDemo st.(privKey) st.(pubKey) st.(embeddingMethod) st.(embeddedPoint)
           st.(randomK) st.(cipherC1) (Some v) st.(encryptLogs)
           st.(decryptedPoint) st.(decryptedMsg) st.(decryptLogs)).

Definition setEncryptLogs (v : list string) : M DemoState unit :=
  update (fun st =>
    mkDemo st.(privKey) st.(pubKey) st.(embeddingMethod) st.(embeddedPoint)
           st.(randomK) st.(cipherC1) st.(cipherC2) v
           st.(decryptedPoint) st.(decryptedMsg) st.(decryptLogs)).

Definition setDecryptedPoint (v : Point) : M DemoState unit :=
  update (fun st =>
    mkDemo st.(privKey) st.(pubKey) st.(embeddingMethod) st.(embeddedPoint)
           st.(randomK) st.(cipherC1) st.(cipherC2) st.(encryptLogs)
           (Some v) st.(decryptedMsg) st.(decryptLogs)).

Definition setDecryptedMsg (v : string) : M DemoState unit :=
  update (fun st =>
    mkDemo st.(privKey) st.(pubKey) st.(embeddingMethod) st.(embeddedPoint)
           st.(randomK) st.(cipherC1) st.(cipherC2) st.(encryptLogs)
           st.(decryptedPoint) v st.(decryptLogs)).

Definition setDecryptLogs (v : list string) : M DemoState unit :=
  update (fun st =>
    mkDemo st.(privKey) st.(pubKey) st.(embeddingMethod) st.(embeddedPoint)
           st.(randomK) st.(cipherC1) st.(cipherC2) st.(encryptLogs)
           st.(decryptedPoint) st.(decryptedMsg) v).

Definition get : M DemoState DemoState := fun st => (Ok st, st).

(** [`(${P.x}, ${P.y})`]. *)
Definition show_point (P : Point) : string :=
  "(" ++ show_opt P.(x) ++ ", " ++ show_opt P.(y) ++ ")".

(** [generateKeys]: the call is wrapped in [try]/[catch]; on an exception
    the public key is left as it was. *)
Definition generateKeys (curve : CurveParams) : M DemoState unit :=
  fun st =>
    match pointMultiply st.(privKey) curve.(G) curve None st with
    | (Ok pub, st') => setPubKey pub st'
    | (Throw _, st') => (Ok tt, st')
    end.

(** [handleEncrypt]; the lines pushed on the local array [logs] are
    gathered where [setEncryptLogs(logs)] publishes them. *)
Definition handleEncrypt (curve : CurveParams) : M DemoState unit :=
  st <~ get ;;
  match st.(embeddedPoint), st.(pubKey) with
  | Some Pm, Some Q =>
      c1 <~ pointMultiply st.(randomK) curve.(G) curve None ;;
      S0 <~ pointMultiply st.(randomK) Q curve None ;;
      c2 <~ pointAdd Pm S0 curve None ;;
      _ <~ setCipherC1 c1 ;;
      _ <~ setCipherC2 c2 ;;
      setEncryptLogs
        [ "使用随机数 k = " ++ show st.(randomK);
          "公钥 Q = " ++ show_point Q;
          "消息点 Pm = " ++ show_point Pm;
          "计算 C1 = k * G...";
          "C1 = " ++ show_point c1;
          "计算共享密钥 S = k * Q...";
          "S = " ++ show_point S0;
          "计算 C2 = Pm + S...";
          "C2 = " ++ show_point c2 ]
  | _, _ => ret tt
  end.

(** [-S.y!] followed by [mod]: the non-null assertion is erased at run time,
    and [-null] is the Number [-0], which [%] refuses to mix with a
    bigint. *)
Definition negate_y (sy : option Z) (cp : Z) : result Z :=
  match sy with
  | Some v => mod_ (- v) cp
  | None => Throw TypeError
  end.

(** [handleDecrypt]. *)
Definition handleDecrypt (curve : CurveParams) : M DemoState unit :=
  st <~ get ;;
  match st.(cipherC1), st.(cipherC2) with
  | Some C1, Some C2 =>
      S0 <~ pointMultiply st.(privKey) C1 curve None ;;
      ny <~ lift (negate_y S0.(y) curve.(p)) ;;
      let negS := mkPoint S0.(x) (Some ny) S0.(isInfinity) in
      M0 <~ pointAdd C2 negS curve None ;;
      _ <~ setDecryptedPoint M0 ;;
      let logs :=
        [ "密文: C1" ++ show_point C1 ++ ", C2" ++ show_point C2;
          "私钥 d = " ++ show st.(privKey);
          "计算 S = d * C1...";
          "S = " ++ show_point S0;
          "-S = " ++ show_point negS;
          "计算 Pm = C2 + (-S)...";
          "恢复点 Pm = " ++ show_point M0 ] in
      match st.(embeddingMethod) with
      | koblitz =>
          m <~ lift (unembedMessageKoblitz M0 20) ;;
          _ <~ setDecryptedMsg (show m) ;;
          setDecryptLogs
            (app logs [ "去嵌入 (Koblitz): m = floor(x / K) = floor("
                        ++ show_opt M0.(x) ++ " / 20) = " ++ show m ])
      | direct =>
          _ <~ setDecryptedMsg
                 (match M0.(x) with Some v => show v | None => EmptyString end) ;;
          setDecryptLogs
            (app logs [ "去嵌入 (直接): 直接使用 x 坐标作为近似值。";
                        "注意: 如果使用了偏移量，没有元数据将无法恢复精确的原始整数。恢复基数: "
                        ++ show_opt M0.(x) ])
      end
  | _, _ => ret tt
  end.

(** ** The handlers of [PointPlayground] and [handleEmbed] *)

(** The outcome of the built-in conversion [BigInt(text)]: a bigint, or a
    [SyntaxError] with its message. *)
Inductive conversion : Type :=
| Converted (z : Z)
| NotConverted (message : string).


(** The state of [PointPlayground]: the five text inputs, the log panel and
    the result. *)
Record PlaygroundState : Type := mkPlayground {
  scalar : string;
  px : string;
  py : string;
  qx : string;
  qy : string;
  logs : list string;
  resultPoint : option Point
}.

Definition setLogs (f : list string -> list string) (st : PlaygroundState)
  : PlaygroundState :=
  mkPlayground st.(scalar) st.(px) st.(py) st.(qx) st.(qy) (f st.(logs))
               st.(resultPoint).

Definition setResultPoint (v : option Point) (st : PlaygroundState)
  : PlaygroundState :=
  mkPlayground st.(scalar) st.(px) st.(py) st.(qx) st.(qy) st.(logs) v.

(** [logCapture]: [setLogs(prev => [...prev, s])]. *)
Definition logCapture (s : string) (st : PlaygroundState) : PlaygroundState :=
  setLogs (fun prev => app prev [s]) st.


Section BuiltIns.

(** The built-in [BigInt(text)] and the messages the JavaScript engine gives
    to its own [RangeError] and [TypeError]. *)
Variable BigInt : string -> conversion.
Variable RANGE_ERROR_MESSAGE : string.
Variable TYPE_ERROR_MESSAGE : string.

(** [(e as Error).message]. *)
Definition message_of (e : exn) : string :=
  match e with
  | Error message => message
  | RangeError => RANGE_ERROR_MESSAGE
  | TypeError => TYPE_ERROR_MESSAGE
  end.

(** The [catch] block of both handlers of [PointPlayground]. *)
Definition playground_catch (message : string) (st : PlaygroundState)
  : PlaygroundState :=
  logCapture ("错误: " ++ message) st.

(** [handleScalarMult]: everything that can throw is inside [try]. *)
Definition handleScalarMult (curve : CurveParams) (st : PlaygroundState)
  : PlaygroundState :=
  let st1 := setResultPoint None (setLogs (fun _ => []) st) in
  match BigInt st.(px) with
  | NotConverted message => playground_catch message st1
  | Converted vx =>
      match BigInt st.(py) with
      | NotConverted message => playground_catch message st1
      | Converted vy =>
          match BigInt st.(scalar) with
          | NotConverted message => playground_catch message st1
          | Converted k =>
              match pointMultiply k (mkPoint (Some vx) (Some vy) false) curve
                                  (Some logCapture) st1 with
              | (Ok R, st2) => setResultPoint (Some R) st2
              | (Throw e, st2) => playground_catch (message_of e) st2
              end
          end
      end
  end.

(** [handlePointAdd]. *)
Definition handlePointAdd (curve : CurveParams) (st : PlaygroundState)
  : PlaygroundState :=
  let st1 := setResultPoint None (setLogs (fun _ => []) st) in
  match BigInt st.(px) with
  | NotConverted message => playground_catch message st1
  | Converted vx =>
      match BigInt st.(py) with
      | NotConverted message => playground_catch message st1
      | Converted vy =>
          match BigInt st.(qx) with
          | NotConverted message => playground_catch message st1
          | Converted wx =>
              match BigInt st.(qy) with
              | NotConverted message => playground_catch message st1
              | Converted wy =>
                  match pointAdd (mkPoint (Some vx) (Some vy) false)
                                 (mkPoint (Some wx) (Some wy) false) curve
                                 (Some logCapture) st1 with
                  | (Ok R, st2) => setResultPoint (Some R) st2
                  | (Throw e, st2) => playground_catch (message_of e) st2
                  end
              end
          end
      end
  end.




End BuiltIns.

(** * Vocabulary of the statements *)

(** The observer's state after [log?.(s)]. *)
Definition observe {Obs : Type} (log : callback Obs) (s : string) (st : Obs)
  : Obs :=
  match log with
  | Some f => f s st
  | None => st
  end.

(** One turn of the loop of [pointMultiply], seen on results only. *)
Definition multiply_turn (c : ascii) (R N : Point) (curve : CurveParams)
  : result (Point * Point) :=
  R' <- (if Ascii.eqb c "1"%char then run (pointAdd R N curve None) else Ok R) ;;
  N' <- run (pointAdd N N curve None) ;;
  Ok (R', N').

(** A small curve with points on the y-axis: [y^2 = x^3 + x + 1 (mod 5)],
    nine points with the one at infinity; [(2, 4)] generates the subgroup
    [{infinity, (2, 4), (2, 1)}] of order [3]. *)
Definition AXIS_CURVE : CurveParams := mkCurve 1 1 5 (affine 2 4) 3.

(** The curve equation, for an affine point with reduced coordinates. *)
Definition onCurve (curve : CurveParams) (P : Point) : bool :=
  match P.(x), P.(y) with
  | Some px, Some py =>
      negb P.(isInfinity)
      && (0 <=? px) && (px <? curve.(p)) && (0 <=? py) && (py <? curve.(p))
      && ((py * py) mod curve.(p)
          =? (px ^ 3 + curve.(a) * px + curve.(b)) mod curve.(p))
  | _, _ => false
  end.


(** What the extended Euclidean loop keeps true when it starts from
    non-negative [u] and [m]. *)
Definition egcd_invariant (u m : Z) (st : egcd) : Prop :=
  st.(old_r) = st.(old_s) * u + st.(old_t) * m
  /\ st.(r) = st.(s) * u + st.(t) * m
  /\ Z.gcd st.(old_r) st.(r) = Z.gcd u m
  /\ 0 <= st.(old_r)
  /\ 0 <= st.(r).

(** The component state once a message point is embedded and before the
    keys are generated. *)
Definition session (d k : Z) (Pm : Point) (how : method) : DemoState :=
  mkDemo d None how (Some Pm) k None None [] None EmptyString [].

(** Key generation, then encryption, then decryption. *)
Definition encrypt_then_decrypt (curve : CurveParams) : M DemoState unit :=
  _ <~ generateKeys curve ;;
  _ <~ handleEncrypt curve ;;
  handleDecrypt curve.

(** [v] is the inverse of [d] modulo [m], reduced. *)
Definition inverse_of (d m v : Z) : Prop :=
  0 <= v < m /\ (d * v) mod m = 1.

(** The chord and tangent law as the specification words it: the slope of
    the tangent when the points are equal, of the chord when they differ,
    then [x3] and [y3]. *)
Definition chord_tangent_law (curve : CurveParams) (x1 y1 x2 y2 : Z)
    (R : Point) : Prop :=
  exists inv lambda x3 y3,
    (if (x1 =? x2) && (y1 =? y2)
     then inverse_of (2 * y1) curve.(p) inv
          /\ lambda = ((3 * x1 * x1 + curve.(a)) * inv) mod curve.(p)
     else inverse_of (x2 - x1) curve.(p) inv
          /\ lambda = ((y2 - y1) * inv) mod curve.(p))
    /\ x3 = (lambda * lambda - x1 - x2) mod curve.(p)
    /\ y3 = (lambda * (x1 - x3) - y1) mod curve.(p)
    /\ R = affine x3 y3.

(** The multiples [0 * G, 1 * G, ..., 12 * G] of the generator of
    [TOY_CURVE]; none of them has a zero coordinate. *)
Definition TOY_POINTS : list Point :=
  [ infinity; affine 2 4; affine 5 9; affine 8 8; affine 10 9; affine 3 5;
    affine 7 2; affine 7 9; affine 3 6; affine 10 2; affine 8 3; affine 5 2;
    affine 2 7 ].

(** The multiple [i * G], for any integer [i]. *)
Definition toy (i : Z) : Point := nth (Z.to_nat (i mod 13)) TOY_POINTS infinity.

(** The Bezout relations of the extended Euclidean loop, whatever the signs
    of [u] and [m]. *)
Definition egcd_bezout (u m : Z) (st : egcd) : Prop :=
  st.(old_r) = st.(old_s) * u + st.(old_t) * m
  /\ st.(r) = st.(s) * u + st.(t) * m.

(** The turns of the loop of [pointMultiply] over [chars], seen on results
    only: the final [R] and [N]. *)
Fixpoint multiply_turns (chars : list ascii) (R N : Point)
    (curve : CurveParams) : result (Point * Point) :=
  match chars with
  | [] => Ok (R, N)
  | c :: rest =>
      RN <- multiply_turn c R N curve ;;
      multiply_turns rest (fst RN) (snd RN) curve
  end.

(** The callback that keeps the lines it is given, in order. *)
Definition collect : callback (list string) :=
  Some (fun line seen => (seen ++ [line])%list).

(** The lines a traced computation gives to the callback. *)
Definition lines_of {A : Type} (m : M (list string) A) : list string :=
  snd (m []).

(** The observer's state after the callback was called on [lines] in
    order. *)
Definition feed {Obs : Type} (log : callback Obs) (lines : list string)
    (st : Obs) : Obs :=
  fold_left (fun s line => observe log line s) lines st.

(** The points of [TOY_CURVE]: the point at infinity and the affine
    solutions of its equation. *)
Definition toy_point (P : Point) : Prop :=
  P = infinity \/ onCurve TOY_CURVE P = true.

(** A point as the data model has it: the literal point at infinity, or an
    affine point with both coordinates in [[0, p)]. *)
Definition proper (curve : CurveParams) (P : Point) : Prop :=
  P = infinity
  \/ exists px py,
       P = affine px py /\ 0 <= px < curve.(p) /\ 0 <= py < curve.(p).

(** * Properties *)

(** ** Modular arithmetic *)

Lemma bigint_rem_ok (u v : Z) : v <> 0 -> bigint_rem u v = Ok (Z.rem u v).
Proof.
  intros Hv. unfold bigint_rem.
  destruct (Z.eqb_spec v 0) as [E | _]; [contradiction | reflexivity].
Qed.

(** For a positive modulus [mod] is the mathematical residue. *)
Lemma mod_pos (u m : Z) : 0 < m -> mod_ u m = Ok (u mod m).
Proof.
  intros Hm. unfold mod_.
  rewrite (bigint_rem_ok u m) by lia. cbn [bind].
  rewrite bigint_rem_ok by lia. f_equal.
  assert (Hb : Z.abs (Z.rem u m) < Z.abs m) by (apply Z.rem_bound_abs; lia).
  rewrite Z.rem_mod_nonneg by lia.
  rewrite <- (Z.mod_add u (1 - u ÷ m) m) by lia.
  f_equal.
  pose proof (Z.quot_rem' u m) as Hq. lia.
Qed.

Lemma mod_zero (u : Z) : mod_ u 0 = Throw RangeError.
Proof. reflexivity. Qed.

Lemma mod_range (u m v : Z) : 0 < m -> mod_ u m = Ok v -> 0 <= v < m.
Proof.
  intros Hm H. rewrite mod_pos in H by assumption.
  injection H as <-. apply Z.mod_pos_bound; assumption.
Qed.

(** [mod] fails only by a division by zero. *)
Lemma mod_throws (u m : Z) (e : exn) :
  mod_ u m = Throw e -> m = 0 /\ e = RangeError.
Proof.
  unfold mod_, bigint_rem.
  destruct (Z.eqb_spec m 0) as [-> | Hm]; cbn [bind].
  - intros H. injection H as <-. split; reflexivity.
  - destruct (Z.eqb_spec m 0); [contradiction | discriminate].
Qed.

(** The loop of [modInverse] terminates within its bound. *)
Lemma egcd_loop_zero (fuel : nat) :
  forall st, (Z.abs_nat st.(r) < fuel)%nat -> (egcd_loop fuel st).(r) = 0.
Proof.
  induction fuel as [| fuel IH]; intros st Hlt; [lia |].
  cbn [egcd_loop].
  destruct (Z.eqb_spec st.(r) 0) as [E | NE]; [exact E |].
  apply IH. cbn [egcd_step r].
  assert (Hr : st.(old_r) - st.(old_r) ÷ st.(r) * st.(r) = Z.rem st.(old_r) st.(r)).
  { pose proof (Z.quot_rem' st.(old_r) st.(r)). lia. }
  rewrite Hr.
  pose proof (Z.rem_bound_abs st.(old_r) st.(r) NE). lia.
Qed.

Lemma egcd_loop_exits (u m : Z) :
  (egcd_loop (egcd_fuel m) (mkEgcd u m 1 0 0 1)).(r) = 0.
Proof. apply egcd_loop_zero. unfold egcd_fuel. cbn [r]. lia. Qed.

(** The loop equation of [modPow]: one turn of
    [while (e > 0n) { if (e % 2n === 1n) res = ...; base = ...; e /= 2n }]. *)
Lemma modPow_while_unfold (res base e m : Z) :
  modPow_while res base e m =
  if 0 <? e then
    res' <- (if Z.rem e 2 =? 1 then mod_ (res * base) m else Ok res) ;;
    base' <- mod_ (base * base) m ;;
    modPow_while res' base' (e ÷ 2) m
  else Ok res.
Proof.
  destruct e as [| q | q]; try reflexivity.
  destruct q as [q | q |]; cbn [modPow_while modPow_loop].
  - replace (Z.rem (Z.pos q~1) 2) with 1
      by (apply Z.rem_unique with (q := Z.pos q); lia).
    replace (Z.pos q~1 ÷ 2) with (Z.pos q)
      by (apply Z.quot_unique with (r := 1); lia).
    reflexivity.
  - replace (Z.rem (Z.pos q~0) 2) with 0
      by (apply Z.rem_unique with (q := Z.pos q); lia).
    replace (Z.pos q~0 ÷ 2) with (Z.pos q)
      by (apply Z.quot_unique with (r := 0); lia).
    reflexivity.
  - reflexivity.
Qed.

(** ** Traced computations and their results *)

(** The pure part of a lifted computation, whatever the observer. *)
Lemma bindM_lift {Obs A B : Type} (m : result A) (k : A -> M Obs B) (st : Obs) :
  bindM (lift m) k st =
  match m with
  | Ok v => k v st
  | Throw e => (Throw e, st)
  end.
Proof. unfold bindM, lift. destruct m; reflexivity. Qed.

Section TraceIndependence.

Context {Obs : Type}.

Ltac unfold_monad := unfold bindM, lift, emit, ret, run.

Lemma pointAdd_finish_fst (x1 y1 x2 lambda cp : Z) (log : callback Obs)
    (st : Obs) :
  fst (pointAdd_finish x1 y1 x2 lambda cp log st)
  = run (pointAdd_finish x1 y1 x2 lambda cp None).
Proof.
  unfold pointAdd_finish, run. rewrite !bindM_lift.
  destruct (mod_ (lambda * lambda - x1 - x2) cp) as [x3 |]; [| reflexivity].
  rewrite !bindM_lift.
  destruct (mod_ (lambda * (x1 - x3) - y1) cp) as [y3 |]; [| reflexivity].
  unfold_monad. destruct log; reflexivity.
Qed.

Lemma pointAdd_finish_None (x1 y1 x2 lambda cp : Z) (st : Obs) :
  snd (pointAdd_finish x1 y1 x2 lambda cp None st) = st.
Proof.
  unfold pointAdd_finish. rewrite !bindM_lift.
  destruct (mod_ (lambda * lambda - x1 - x2) cp) as [x3 |]; [| reflexivity].
  rewrite !bindM_lift.
  destruct (mod_ (lambda * (x1 - x3) - y1) cp) as [y3 |]; reflexivity.
Qed.

(** The result of [pointAdd] does not depend on the callback or on the
    observer's state. *)
Lemma pointAdd_fst (P Q : Point) (curve : CurveParams) (log : callback Obs)
    (st : Obs) :
  fst (pointAdd P Q curve log st) = run (pointAdd P Q curve None).
Proof.
  unfold pointAdd, run.
  destruct (isInfinity P); [reflexivity |].
  destruct (isInfinity Q); [reflexivity |].
  destruct (x P) as [x1 |]; [| reflexivity].
  destruct (y P) as [y1 |]; [| reflexivity].
  destruct (x Q) as [x2 |]; [| reflexivity].
  destruct (y Q) as [y2 |]; [| reflexivity].
  destruct ((x1 =? 0) || (y1 =? 0) || (x2 =? 0) || (y2 =? 0));
    [reflexivity |].
  destruct ((x1 =? x2) && negb (y1 =? y2)).
  { unfold_monad. destruct log; reflexivity. }
  destruct ((x1 =? x2) && (y1 =? y2)).
  - destruct (y1 =? 0); [reflexivity |].
    rewrite !bindM_lift.
    destruct (mod_ (3 * x1 * x1 + a curve) (p curve)) as [num |];
      [| reflexivity].
    rewrite !bindM_lift.
    destruct (modInverse (2 * y1) (p curve)) as [den |]; [| reflexivity].
    rewrite !bindM_lift.
    destruct (mod_ (num * den) (p curve)) as [lambda |]; [| reflexivity].
    transitivity (run (pointAdd_finish (Obs := unit) x1 y1 x2 lambda
                                       (p curve) None)).
    + unfold bindM at 1. unfold emit at 1.
      destruct log; apply pointAdd_finish_fst.
    + reflexivity.
  - rewrite !bindM_lift.
    destruct (mod_ (y2 - y1) (p curve)) as [num |]; [| reflexivity].
    rewrite !bindM_lift.
    destruct (mod_ (x2 - x1) (p curve)) as [dx |]; [| reflexivity].
    rewrite !bindM_lift.
    destruct (modInverse dx (p curve)) as [den |]; [| reflexivity].
    rewrite !bindM_lift.
    destruct (mod_ (num * den) (p curve)) as [lambda |]; [| reflexivity].
    transitivity (run (pointAdd_finish (Obs := unit) x1 y1 x2 lambda
                                       (p curve) None)).
    + unfold bindM at 1. unfold emit at 1.
      destruct log; apply pointAdd_finish_fst.
    + reflexivity.
Qed.

(** Without a callback [pointAdd] leaves the observer's state alone. *)
Lemma pointAdd_None_snd (P Q : Point) (curve : CurveParams) (st : Obs) :
  snd (pointAdd P Q curve None st) = st.
Proof.
  unfold pointAdd.
  destruct (isInfinity P); [reflexivity |].
  destruct (isInfinity Q); [reflexivity |].
  destruct (x P) as [x1 |]; [| reflexivity].
  destruct (y P) as [y1 |]; [| reflexivity].
  destruct (x Q) as [x2 |]; [| reflexivity].
  destruct (y Q) as [y2 |]; [| reflexivity].
  destruct ((x1 =? 0) || (y1 =? 0) || (x2 =? 0) || (y2 =? 0));
    [reflexivity |].
  destruct ((x1 =? x2) && negb (y1 =? y2)); [reflexivity |].
  destruct ((x1 =? x2) && (y1 =? y2)).
  - destruct (y1 =? 0); [reflexivity |].
    rewrite !bindM_lift.
    destruct (mod_ (3 * x1 * x1 + a curve) (p curve)) as [num |];
      [| reflexivity].
    rewrite !bindM_lift.
    destruct (modInverse (2 * y1) (p curve)) as [den |]; [| reflexivity].
    rewrite !bindM_lift.
    destruct (mod_ (num * den) (p curve)) as [lambda |]; [| reflexivity].
    apply pointAdd_finish_None.
  - rewrite !bindM_lift.
    destruct (mod_ (y2 - y1) (p curve)) as [num |]; [| reflexivity].
    rewrite !bindM_lift.
    destruct (mod_ (x2 - x1) (p curve)) as [dx |]; [| reflexivity].
    rewrite !bindM_lift.
    destruct (modInverse dx (p curve)) as [den |]; [| reflexivity].
    rewrite !bindM_lift.
    destruct (mod_ (num * den) (p curve)) as [lambda |]; [| reflexivity].
    apply pointAdd_finish_None.
Qed.

Lemma pointAdd_None (P Q : Point) (curve : CurveParams) (st : Obs) :
  pointAdd P Q curve None st = (run (pointAdd P Q curve None), st).
Proof.
  rewrite (surjective_pairing (pointAdd P Q curve None st)).
  rewrite pointAdd_fst, pointAdd_None_snd. reflexivity.
Qed.

(** Binding a call of [pointAdd] that passes no callback. *)
Lemma bindM_pointAdd {B : Type} (P Q : Point) (curve : CurveParams)
    (k : Point -> M Obs B) (st : Obs) :
  bindM (pointAdd P Q curve None) k st =
  match run (pointAdd P Q curve None) with
  | Ok R => k R st
  | Throw e => (Throw e, st)
  end.
Proof.
  unfold bindM. rewrite pointAdd_None.
  destruct (run (pointAdd P Q curve None)); reflexivity.
Qed.

End TraceIndependence.

Lemma bindM_emit {Obs B : Type} (log : callback Obs) (s : string)
    (k : unit -> M Obs B) (st : Obs) :
  bindM (emit log s) k st = k tt (observe log s st).
Proof. unfold bindM, emit, observe. destruct log; reflexivity. Qed.

Lemma bindM_ret {Obs A B : Type} (v : A) (k : A -> M Obs B) (st : Obs) :
  bindM (ret v) k st = k v st.
Proof. reflexivity. Qed.

Lemma bindM_assoc {Obs A B C : Type} (m : M Obs A) (f : A -> M Obs B)
    (k : B -> M Obs C) (st : Obs) :
  bindM (bindM m f) k st = bindM m (fun v => bindM (f v) k) st.
Proof.
  unfold bindM. destruct (m st) as [[v | e] st']; reflexivity.
Qed.

Lemma pointMultiply_loop_cons (c : ascii) (rest : list ascii) (pos : nat)
    (R N : Point) (curve : CurveParams) :
  run (pointMultiply_loop (c :: rest) pos R N curve None) =
  RN <- multiply_turn c R N curve ;;
  run (pointMultiply_loop rest (S pos) (fst RN) (snd RN) curve None).
Proof.
  unfold run at 1, multiply_turn. cbn [pointMultiply_loop].
  destruct (Ascii.eqb c "1"%char).
  - rewrite bindM_assoc, bindM_emit, bindM_pointAdd.
    destruct (run (pointAdd R N curve None)) as [R' | e]; [| reflexivity].
    rewrite bindM_emit, bindM_pointAdd. cbn [bind].
    destruct (run (pointAdd N N curve None)) as [N' | e]; reflexivity.
  - rewrite bindM_ret, bindM_emit, bindM_pointAdd. cbn [bind].
    destruct (run (pointAdd N N curve None)) as [N' | e]; reflexivity.
Qed.

Lemma pointMultiply_loop_fst {Obs : Type} (curve : CurveParams)
    (log : callback Obs) (chars : list ascii) :
  forall (pos : nat) (R N : Point) (st : Obs),
    fst (pointMultiply_loop chars pos R N curve log st)
    = run (pointMultiply_loop chars pos R N curve None).
Proof.
  induction chars as [| c rest IH]; intros pos R N st; [reflexivity |].
  rewrite pointMultiply_loop_cons. unfold multiply_turn.
  cbn [pointMultiply_loop].
  destruct (Ascii.eqb c "1"%char).
  - rewrite bindM_assoc, bindM_emit, bindM_pointAdd.
    destruct (run (pointAdd R N curve None)) as [R' | e]; [| reflexivity].
    rewrite bindM_emit, bindM_pointAdd. cbn [bind].
    destruct (run (pointAdd N N curve None)) as [N' | e]; [| reflexivity].
    apply IH.
  - rewrite bindM_ret, bindM_emit, bindM_pointAdd. cbn [bind].
    destruct (run (pointAdd N N curve None)) as [N' | e]; [| reflexivity].
    apply IH.
Qed.

Lemma pointMultiply_loop_None_snd {Obs : Type} (curve : CurveParams)
    (chars : list ascii) :
  forall (pos : nat) (R N : Point) (st : Obs),
    snd (pointMultiply_loop chars pos R N curve None st) = st.
Proof.
  induction chars as [| c rest IH]; intros pos R N st; [reflexivity |].
  cbn [pointMultiply_loop].
  destruct (Ascii.eqb c "1"%char).
  - rewrite bindM_assoc, bindM_emit, bindM_pointAdd.
    destruct (run (pointAdd R N curve None)) as [R' | e]; [| reflexivity].
    rewrite bindM_emit, bindM_pointAdd.
    destruct (run (pointAdd N N curve None)) as [N' | e]; [| reflexivity].
    apply IH.
  - rewrite bindM_ret, bindM_emit, bindM_pointAdd.
    destruct (run (pointAdd N N curve None)) as [N' | e]; [| reflexivity].
    apply IH.
Qed.

(** The result of [pointMultiply] does not depend on the callback or on the
    observer's state. *)
Lemma pointMultiply_fst {Obs : Type} (k : Z) (P : Point) (curve : CurveParams)
    (log : callback Obs) (st : Obs) :
  fst (pointMultiply k P curve log st) = run (pointMultiply k P curve None).
Proof.
  unfold pointMultiply, run at 1. rewrite !bindM_emit.
  rewrite !pointMultiply_loop_fst. reflexivity.
Qed.

Lemma pointMultiply_None {Obs : Type} (k : Z) (P : Point) (curve : CurveParams)
    (st : Obs) :
  pointMultiply k P curve None st = (run (pointMultiply k P curve None), st).
Proof.
  rewrite (surjective_pairing (pointMultiply k P curve None st)).
  rewrite pointMultiply_fst. f_equal.
  unfold pointMultiply. rewrite bindM_emit.
  apply pointMultiply_loop_None_snd.
Qed.

Lemma bindM_pointMultiply {Obs B : Type} (k : Z) (P : Point)
    (curve : CurveParams) (f : Point -> M Obs B) (st : Obs) :
  bindM (pointMultiply k P curve None) f st =
  match run (pointMultiply k P curve None) with
  | Ok R => f R st
  | Throw e => (Throw e, st)
  end.
Proof.
  unfold bindM. rewrite pointMultiply_None.
  destruct (run (pointMultiply k P curve None)); reflexivity.
Qed.

(** C8: the trace is only observed. [pointAdd] and [pointMultiply] return
    the same result (the same point, or the same exception) whether a trace
    callback is supplied or omitted, whatever the callback does with the
    strings and whatever state the observer is in; nothing the callback
    keeps flows back into the computation. *)
Theorem trace_is_observational
    (Obs : Type) (f : string -> Obs -> Obs) (st st' : Obs)
    (P Q : Point) (k : Z) (curve : CurveParams) :
  fst (pointAdd P Q curve (Some f) st) = fst (pointAdd P Q curve None st')
  /\ fst (pointMultiply k P curve (Some f) st)
     = fst (pointMultiply k P curve None st').
Proof.
  split.
  - rewrite (pointAdd_fst P Q curve (Some f) st).
    rewrite (pointAdd_fst P Q curve None st'). reflexivity.
  - rewrite (pointMultiply_fst k P curve (Some f) st).
    rewrite (pointMultiply_fst k P curve None st'). reflexivity.
Qed.

(** The callback does receive the trace: the lines of
    [pointMultiply(5n, G, TOY_CURVE, log)] in the order they are emitted. *)
Example pointMultiply_trace :
  pointMultiply 5 (G TOY_CURVE) TOY_CURVE
                (Some (fun line seen => seen ++ [line])%list) []
  = (Ok (affine 3 5),
     [ "标量乘法: k=5 (二进制: 101)";
       "第 2^0 位是 1。将当前点 N 加到结果中。";
       "为下一位对 N 进行倍点运算。";
       "为下一位对 N 进行倍点运算。";
       "第 2^2 位是 1。将当前点 N 加到结果中。";
       "为下一位对 N 进行倍点运算。" ]).
Proof. vm_compute. reflexivity. Qed.

(** ** Koblitz embedding *)

(** A successful search returns [x = message * K + j] for some [j] it
    visited. *)
Lemma embedMessageKoblitz_loop_ok (curve : CurveParams) (K message : Z)
    (count : nat) :
  forall (j : Z) (P : Point),
    embedMessageKoblitz_loop count j message curve K = Ok P ->
    exists j' y0,
      j <= j' < j + Z.of_nat count /\
      P = mkPoint (Some (message * K + j')) (Some y0) false.
Proof.
  induction count as [| count IH]; intros j P H; [discriminate |].
  cbn [embedMessageKoblitz_loop] in H.
  destruct (isValidX (message * K + j) curve) as [[valid oy] | e];
    cbn [bind] in H; [| discriminate].
  destruct valid, oy as [y0 |];
    try (apply IH in H; destruct H as (j' & y1 & Hj & HP);
         exists j', y1; split; [lia | exact HP]).
  injection H as <-. exists j, y0. split; [lia | reflexivity].
Qed.

(** C4: Koblitz round-trip. Whenever [embedMessageKoblitz(m, curve, K)]
    returns a point for a non-negative message [m], 
    [unembedMessageKoblitz] applied to that point with the same [K] returns
    exactly [m]. *)
Theorem koblitz_roundtrip (curve : CurveParams) (K m : Z) (P : Point) :
  0 <= m ->
  embedMessageKoblitz m curve K = Ok P ->
  unembedMessageKoblitz P K = Ok m.
Proof.
  intros Hm H. unfold embedMessageKoblitz in H.
  apply embedMessageKoblitz_loop_ok in H.
  destruct H as (j & y0 & Hj & ->).
  assert (HK : 0 < K) by lia.
  rewrite Z2Nat.id in Hj by lia.
  unfold unembedMessageKoblitz, bigint_div. cbn [isInfinity x].
  destruct (Z.eqb_spec K 0) as [E | _]; [lia |].
  f_equal. rewrite Z.quot_div_nonneg by nia.
  symmetry. apply Z.div_unique with (r := j); lia.
Qed.

Lemma koblitz_roundtrip_witness :
  embedMessageKoblitz 12 DEMO_CURVE 20 = Ok (affine 243 429)
  /\ unembedMessageKoblitz (affine 243 429) 20 = Ok 12.
Proof.
  assert (E : embedMessageKoblitz 12 DEMO_CURVE 20 = Ok (affine 243 429))
    by (vm_compute; reflexivity).
  split; [exact E |].
  apply (koblitz_roundtrip DEMO_CURVE 20 12 (affine 243 429)); [lia | exact E].
Defined.

(** ** The guard of [pointAdd] *)

(** C9, as stated, fails when the other argument is the point at infinity:
    the two infinity tests come before the guard, so [(0, 1)], a
    non-infinity point with a zero x-coordinate, is returned unchanged. *)
Lemma pointAdd_guard_counterexample :
  x (affine 0 1) = Some 0
  /\ isInfinity (affine 0 1) = false
  /\ run (pointAdd infinity (affine 0 1) AXIS_CURVE None) = Ok (affine 0 1)
  /\ run (pointAdd (affine 0 1) infinity AXIS_CURVE None) = Ok (affine 0 1)
  /\ affine 0 1 <> infinity.
Proof. repeat split; discriminate. Qed.

(** C9, amended: when neither argument is the point at infinity and one of
    the four coordinates is [0n], [pointAdd] returns the point at infinity
    straight from the guard: no formula is applied and the callback is not
    called (the observer's state is unchanged). When the other argument is
    the point at infinity, the non-infinity argument is returned unchanged,
    on either side, whatever its coordinates, again without a call of the
    callback. *)
Theorem pointAdd_zero_coordinate (Obs : Type) (P Q : Point)
    (curve : CurveParams) (log : callback Obs) (st : Obs) :
  (isInfinity P = false ->
   isInfinity Q = false ->
   x P = Some 0 \/ y P = Some 0 \/ x Q = Some 0 \/ y Q = Some 0 ->
   pointAdd P Q curve log st = (Ok infinity, st))
  /\ (isInfinity P = false ->
      isInfinity Q = true ->
      pointAdd P Q curve log st = (Ok P, st)
      /\ pointAdd Q P curve log st = (Ok P, st)).
Proof.
  split.
  - intros HP HQ Hz. unfold pointAdd. rewrite HP, HQ.
    destruct (x P) as [x1 |]; [| reflexivity].
    destruct (y P) as [y1 |]; [| reflexivity].
    destruct (x Q) as [x2 |]; [| reflexivity].
    destruct (y Q) as [y2 |]; [| reflexivity].
    assert (E : (x1 =? 0) || (y1 =? 0) || (x2 =? 0) || (y2 =? 0) = true).
    { destruct Hz as [H | [H | [H | H]]]; injection H as ->; cbn;
        rewrite ?orb_true_r; reflexivity. }
    rewrite E. reflexivity.
  - intros HP HQ. unfold pointAdd. rewrite HP, HQ. split; reflexivity.
Qed.

Lemma pointAdd_zero_coordinate_witness :
  pointAdd (affine 0 1) (affine 2 1) AXIS_CURVE
           (Some (fun line seen => seen ++ [line])%list) []
  = (Ok infinity, [])
  /\ pointAdd (affine 0 1) infinity AXIS_CURVE
              (Some (fun line seen => seen ++ [line])%list) []
     = (Ok (affine 0 1), [])
  /\ pointAdd infinity (affine 0 1) AXIS_CURVE
              (Some (fun line seen => seen ++ [line])%list) []
     = (Ok (affine 0 1), []).
Proof.
  split.
  - apply (proj1 (pointAdd_zero_coordinate (list string) (affine 0 1)
                    (affine 2 1) AXIS_CURVE _ [])).
    + reflexivity.
    + reflexivity.
    + left. reflexivity.
  - apply (proj2 (pointAdd_zero_coordinate (list string) (affine 0 1)
                    infinity AXIS_CURVE _ [])).
    + reflexivity.
    + reflexivity.
Defined.

(** ** Reduced coordinates *)

Lemma pointAdd_finish_reduced (x1 y1 x2 lambda cp : Z) (R : Point) :
  0 < cp ->
  run (pointAdd_finish x1 y1 x2 lambda cp None) = Ok R ->
  exists px py, R = affine px py /\ 0 <= px < cp /\ 0 <= py < cp.
Proof.
  intros Hp. unfold run, pointAdd_finish.
  rewrite bindM_lift, mod_pos by assumption. cbv beta iota.
  rewrite bindM_lift, mod_pos by assumption. cbv beta iota.
  rewrite bindM_emit. cbn. intros H. injection H as <-.
  eexists _, _. split; [reflexivity |].
  split; apply Z.mod_pos_bound; assumption.
Qed.

(** Two non-infinity arguments give the literal point at infinity or a
    point with both coordinates reduced. *)
Lemma pointAdd_affine_reduced (P Q R : Point) (curve : CurveParams) :
  0 < curve.(p) ->
  isInfinity P = false ->
  isInfinity Q = false ->
  run (pointAdd P Q curve None) = Ok R ->
  R = infinity
  \/ exists px py,
       R = affine px py /\ 0 <= px < curve.(p) /\ 0 <= py < curve.(p).
Proof.
  intros Hp HP HQ. unfold run, pointAdd. rewrite HP, HQ.
  destruct (x P) as [x1 |]; [| cbn; intros H; injection H; auto].
  destruct (y P) as [y1 |]; [| cbn; intros H; injection H; auto].
  destruct (x Q) as [x2 |]; [| cbn; intros H; injection H; auto].
  destruct (y Q) as [y2 |]; [| cbn; intros H; injection H; auto].
  destruct ((x1 =? 0) || (y1 =? 0) || (x2 =? 0) || (y2 =? 0));
    [cbn; intros H; injection H; auto |].
  destruct ((x1 =? x2) && negb (y1 =? y2));
    [cbn; intros H; injection H; auto |].
  destruct ((x1 =? x2) && (y1 =? y2)).
  - destruct (y1 =? 0); [cbn; intros H; injection H; auto |].
    rewrite bindM_lift, mod_pos by assumption. cbv beta iota.
    rewrite bindM_lift.
    destruct (modInverse (2 * y1) (p curve)) as [den |]; [| discriminate].
    rewrite bindM_lift, mod_pos by assumption. cbv beta iota.
    rewrite bindM_emit. intros H. right.
    apply (pointAdd_finish_reduced x1 y1 x2 _ (p curve) R Hp H).
  - rewrite bindM_lift, mod_pos by assumption. cbv beta iota.
    rewrite bindM_lift, mod_pos by assumption. cbv beta iota.
    rewrite bindM_lift.
    destruct (modInverse _ (p curve)) as [den |]; [| discriminate].
    rewrite bindM_lift, mod_pos by assumption. cbv beta iota.
    rewrite bindM_emit. intros H. right.
    apply (pointAdd_finish_reduced x1 y1 x2 _ (p curve) R Hp H).
Qed.








(** ** [modInverse] *)

Lemma egcd_step_invariant (u m : Z) (st : egcd) :
  egcd_invariant u m st -> st.(r) <> 0 -> egcd_invariant u m (egcd_step st).
Proof.
  intros (Ho & Hr & Hg & Hpo & Hpr) Hnz.
  unfold egcd_invariant, egcd_step. cbn [old_r r old_s s old_t t].
  set (q := st.(old_r) ÷ st.(r)).
  split; [exact Hr |].
  split; [rewrite Ho, Hr; ring |].
  split.
  - rewrite <- Hg.
    replace (old_r st - q * r st) with (old_r st + (- q) * r st) by ring.
    rewrite Z.gcd_add_mult_diag_r. apply Z.gcd_comm.
  - split; [exact Hpr |].
    replace (old_r st - q * r st) with (Z.rem (old_r st) (r st)).
    + apply Z.rem_nonneg; assumption.
    + pose proof (Z.quot_rem' (old_r st) (r st)). subst q. lia.
Qed.

Lemma egcd_loop_invariant (u m : Z) (fuel : nat) :
  forall st, egcd_invariant u m st -> egcd_invariant u m (egcd_loop fuel st).
Proof.
  induction fuel as [| fuel IH]; intros st Hst; [exact Hst |].
  cbn [egcd_loop].
  destruct (Z.eqb_spec st.(r) 0) as [E | NE]; [exact Hst |].
  apply IH. apply egcd_step_invariant; assumption.
Qed.

(** On leaving the loop [old_r] is the gcd and [old_s] a Bezout
    coefficient of [u]. *)
Lemma egcd_loop_result (u m : Z) :
  0 <= u -> 0 <= m ->
  let st := egcd_loop (egcd_fuel m) (mkEgcd u m 1 0 0 1) in
  st.(old_r) = Z.gcd u m /\ st.(old_r) = st.(old_s) * u + st.(old_t) * m.
Proof.
  intros Hu Hm st.
  assert (Hinit : egcd_invariant u m (mkEgcd u m 1 0 0 1)).
  { unfold egcd_invariant. cbn [old_r r old_s s old_t t].
    repeat split; try ring; assumption. }
  pose proof (egcd_loop_invariant u m (egcd_fuel m) _ Hinit)
    as (Ho & _ & Hg & Hpo & _).
  fold st in Ho, Hg, Hpo.
  pose proof (egcd_loop_exits u m) as Hexit. fold st in Hexit.
  rewrite Hexit, Z.gcd_0_r, Z.abs_eq in Hg by assumption.
  split; assumption.
Qed.

(** For a non-negative first argument and a modulus above [1], [modInverse]
    returns the unique inverse in [[0, m)] when the gcd is [1] and throws
    its error otherwise. *)
Lemma modInverse_nonneg (u m : Z) :
  0 <= u -> 1 < m ->
  (Z.gcd u m = 1 ->
   exists v, modInverse u m = Ok v
             /\ 0 <= v < m
             /\ (u * v) mod m = 1
             /\ forall v', 0 <= v' < m -> (u * v') mod m = 1 -> v' = v)
  /\ (Z.gcd u m <> 1 -> modInverse u m = Throw (Error NO_INVERSE)).
Proof.
  intros Hu Hm.
  destruct (egcd_loop_result u m Hu ltac:(lia)) as [Hg Hb].
  unfold modInverse.
  set (st := egcd_loop (egcd_fuel m) (mkEgcd u m 1 0 0 1)) in *.
  split; intros Hgcd.
  - rewrite Hgcd in Hg. rewrite Hg in *. cbn [Z.eqb negb].
    rewrite mod_pos by lia.
    assert (Hinv : (u * (old_s st mod m)) mod m = 1).
    { rewrite Z.mul_mod_idemp_r by lia.
      replace (u * old_s st) with (1 + (- old_t st) * m) by lia.
      rewrite Z.mod_add by lia. apply Z.mod_small. lia. }
    exists (old_s st mod m).
    split; [reflexivity |].
    split; [apply Z.mod_pos_bound; lia |].
    split; [exact Hinv |].
    intros v' Hv' Hinv'.
    rewrite <- (Z.mod_small v' m) by assumption.
    rewrite <- (Z.mul_1_r v') at 1. rewrite <- Hinv at 1.
    rewrite Z.mul_mod_idemp_r by lia.
    replace (v' * (u * (old_s st mod m))) with ((u * v') * (old_s st mod m))
      by ring.
    rewrite <- Z.mul_mod_idemp_l by lia.
    rewrite Hinv', Z.mul_1_l. apply Z.mod_mod. lia.
  - destruct (Z.eqb_spec (old_r st) 1) as [E | NE]; [congruence |].
    reflexivity.
Qed.

(** The two concrete cases the specification lists. *)
Example modInverse_2_11 : modInverse 2 11 = Ok 6.
Proof. reflexivity. Qed.

Example modInverse_0_11 : modInverse 0 11 = Throw (Error NO_INVERSE).
Proof. reflexivity. Qed.

(** C6: for a negative first argument the loop can leave with
    [old_r = -1]; the test [old_r !== 1n] then reports that no inverse
    exists although the gcd is [1]: [modInverse(-1n, 5n)] throws, while
    [4] is the inverse of [-1] modulo [5]. The same happens for
    [modInverse(-14n, 11n)], reached from [pointAdd] when a point is
    entered with [y = -7]. *)
Theorem modInverse_negative_argument :
  modInverse (-1) 5 = Throw (Error NO_INVERSE)
  /\ Z.gcd (-1) 5 = 1
  /\ (-1 * 4) mod 5 = 1
  /\ modInverse (-14) 11 = Throw (Error NO_INVERSE)
  /\ Z.gcd (-14) 11 = 1
  /\ run (pointAdd (affine 2 (-7)) (affine 2 (-7)) TOY_CURVE None)
     = Throw (Error NO_INVERSE).
Proof. repeat split. Qed.

(** ** [modSqrt] *)

Lemma modSqrt_search_sound (m u : Z) (count : nat) :
  forall i v,
    modSqrt_search count i u m = Ok (Some v) ->
    mod_ (v * v) m = Ok u /\ i <= v < i + Z.of_nat count.
Proof.
  induction count as [| count IH]; intros i v H; [discriminate |].
  cbn [modSqrt_search] in H.
  destruct (mod_ (i * i) m) as [sq |] eqn:E; cbn [bind] in H; [| discriminate].
  destruct (Z.eqb_spec sq u) as [-> | NE].
  - injection H as <-. split; [exact E | lia].
  - apply IH in H. destruct H as [H1 H2]. split; [exact H1 | lia].
Qed.

(** Whatever [modSqrt] returns is a square root. *)
Lemma modSqrt_sound (u m v : Z) :
  0 < m -> modSqrt u m = Ok (Some v) -> (v * v) mod m = u mod m.
Proof.
  intros Hm. unfold modSqrt.
  rewrite mod_pos by assumption. cbn [bind].
  rewrite bigint_rem_ok by lia. cbn [bind].
  destruct (Z.rem m 4 =? 3).
  - destruct (modPow (u mod m) ((m + 1) ÷ 4) m) as [r0 |]; [| discriminate].
    cbn [bind]. rewrite mod_pos by assumption. cbn [bind].
    destruct (Z.eqb_spec ((r0 * r0) mod m) (u mod m)) as [E | NE];
      [| discriminate].
    intros H. injection H as <-. exact E.
  - intros H. apply modSqrt_search_sound in H. destruct H as [H _].
    rewrite mod_pos in H by assumption. injection H as H. exact H.
Qed.

Lemma prime_5 : Z.prime 5.
Proof.
  split; [lia |].
  intros k Hk [q Hq].
  assert (Hc : k = 2 \/ k = 3 \/ k = 4) by lia.
  destruct Hc as [-> | [-> | ->]]; lia.
Qed.

(** [modPow] computes the power, reduced. *)
Lemma modPow_loop_correct (m : Z) (q : positive) :
  0 < m ->
  forall res base, modPow_loop q res base m = Ok ((res * base ^ Z.pos q) mod m).
Proof.
  intros Hm.
  induction q as [q IH | q IH |]; intros res base; cbn [modPow_loop];
    rewrite ?mod_pos by assumption; cbn [bind].
  - rewrite IH. f_equal.
    rewrite Z.mul_mod_idemp_l by lia.
    rewrite <- Z.mul_mod_idemp_r, Z.mod_pow_l, Z.mul_mod_idemp_r by lia.
    f_equal. rewrite Pos2Z.inj_xI, Z.pow_add_r, Z.pow_mul_r by lia.
    rewrite Z.pow_2_r, Z.pow_1_r. ring.
  - rewrite IH. f_equal.
    rewrite <- Z.mul_mod_idemp_r, Z.mod_pow_l, Z.mul_mod_idemp_r by lia.
    f_equal. rewrite Pos2Z.inj_xO, Z.pow_mul_r by lia.
    rewrite Z.pow_2_r. reflexivity.
  - rewrite Z.pow_1_r. reflexivity.
Qed.

Lemma modPow_correct (base e m : Z) :
  0 < m -> 0 < e -> modPow base e m = Ok ((base ^ e) mod m).
Proof.
  intros Hm He. unfold modPow. rewrite mod_pos by assumption. cbn [bind].
  destruct e as [| q | q]; try lia. cbn [modPow_while].
  rewrite modPow_loop_correct by assumption.
  rewrite Z.mul_1_l, Z.mod_pow_l. reflexivity.
Qed.

(** The closed form for a prime [m = 3 (mod 4)]: if [u] has a square root
    at all, [u^((m+1)/4)] is one. *)
Lemma closed_form_root (m u s0 : Z) :
  Z.prime m -> Z.rem m 4 = 3 ->
  (s0 * s0) mod m = u mod m ->
  let r0 := ((u mod m) ^ ((m + 1) ÷ 4)) mod m in
  (r0 * r0) mod m = u mod m.
Proof.
  intros Hprime H4 Hs r0. subst r0.
  pose proof (Z.prime_ge_2 m Hprime) as Hm.
  pose proof (Z.quot_rem' m 4) as Hq. rewrite H4 in Hq.
  set (k := m ÷ 4) in *.
  assert (Hk : (m + 1) ÷ 4 = k + 1).
  { symmetry. apply Z.quot_unique with (r := 0); lia. }
  assert (Hk0 : 0 <= k) by lia.
  rewrite Hk.
  rewrite <- Z.mul_mod by lia.
  rewrite <- Z.pow_add_r by lia.
  rewrite <- Hs, Z.mod_pow_l.
  replace ((s0 * s0) ^ (k + 1 + (k + 1))) with (s0 ^ m * s0).
  - rewrite <- Z.mul_mod_idemp_l, Z.fermat, Z.mul_mod_idemp_l
      by (trivial; lia).
    reflexivity.
  - rewrite <- Z.pow_2_r, <- Z.pow_mul_r by lia.
    replace (2 * (k + 1 + (k + 1))) with (m + 1) by lia.
    rewrite Z.pow_add_r, Z.pow_1_r by lia. reflexivity.
Qed.

Lemma modSqrt_search_complete (m u : Z) (count : nat) :
  0 < m ->
  forall i i0,
    i <= i0 < i + Z.of_nat count ->
    (i0 * i0) mod m = u ->
    exists v, modSqrt_search count i u m = Ok (Some v).
Proof.
  intros Hm.
  induction count as [| count IH]; intros i i0 Hi Hroot; [lia |].
  cbn [modSqrt_search]. rewrite mod_pos by assumption. cbn [bind].
  destruct (Z.eqb_spec ((i * i) mod m) u) as [E | NE].
  - exists i. reflexivity.
  - apply (IH (i + 1) i0); [| exact Hroot].
    assert (i <> i0) by (intros ->; contradiction). lia.
Qed.

Lemma modSqrt_search_total (m u : Z) (count : nat) :
  0 < m -> forall i, exists o, modSqrt_search count i u m = Ok o.
Proof.
  intros Hm.
  induction count as [| count IH]; intros i; [exists None; reflexivity |].
  cbn [modSqrt_search]. rewrite mod_pos by assumption. cbn [bind].
  destruct ((i * i) mod m =? u); [exists (Some i); reflexivity | apply IH].
Qed.

(** For a prime modulus the search from [1] never meets a root of [0]. *)
Lemma modSqrt_search_zero (m : Z) (count : nat) :
  Z.prime m ->
  forall i, 1 <= i -> i + Z.of_nat count <= m ->
            modSqrt_search count i 0 m = Ok None.
Proof.
  intros Hprime. pose proof (Z.prime_ge_2 m Hprime) as Hm.
  induction count as [| count IH]; intros i Hi Hle; [reflexivity |].
  cbn [modSqrt_search]. rewrite mod_pos by lia. cbn [bind].
  destruct (Z.eqb_spec ((i * i) mod m) 0) as [E | NE].
  - exfalso. apply Z.mod_divide in E; [| lia].
    apply Z.divide_prime_mul in E; [| exact Hprime].
    assert (Hd : (m | i)) by tauto.
    apply Z.divide_pos_le in Hd; lia.
  - apply IH; lia.
Qed.

(** What [modSqrt] does for a prime modulus: it is sound, it never throws,
    it finds a root whenever one exists except that, outside the branch
    [m = 3 (mod 4)], the residue [0] is reported to have none. *)
Lemma modSqrt_prime (u m : Z) :
  Z.prime m ->
  (forall v, modSqrt u m = Ok (Some v) -> (v * v) mod m = u mod m)
  /\ (Z.rem m 4 = 3 \/ u mod m <> 0 ->
      (exists s0, (s0 * s0) mod m = u mod m) ->
      exists v, modSqrt u m = Ok (Some v))
  /\ ((forall s0, (s0 * s0) mod m <> u mod m) -> modSqrt u m = Ok None)
  /\ (Z.rem m 4 <> 3 -> u mod m = 0 -> modSqrt u m = Ok None).
Proof.
  intros Hprime. pose proof (Z.prime_ge_2 m Hprime) as Hm.
  assert (Hsound : forall v, modSqrt u m = Ok (Some v) ->
                             (v * v) mod m = u mod m).
  { intros v. apply modSqrt_sound. lia. }
  assert (Htotal : exists o, modSqrt u m = Ok o).
  { unfold modSqrt. rewrite mod_pos by lia. cbn [bind].
    rewrite bigint_rem_ok by lia. cbn [bind].
    destruct (Z.eqb_spec (Z.rem m 4) 3) as [E | NE].
    - pose proof (Z.quot_rem' m 4) as Hq. rewrite E in Hq.
      assert (He : 0 < (m + 1) ÷ 4).
      { replace ((m + 1) ÷ 4) with (m ÷ 4 + 1)
          by (apply Z.quot_unique with (r := 0); lia). lia. }
      rewrite modPow_correct by lia. cbn [bind].
      rewrite mod_pos by lia. cbn [bind].
      destruct (_ =? _); eexists; reflexivity.
    - apply modSqrt_search_total. lia. }
  split; [exact Hsound |]. split; [| split].
  - intros Hcase [s0 Hs]. unfold modSqrt.
    rewrite mod_pos by lia. cbn [bind].
    rewrite bigint_rem_ok by lia. cbn [bind].
    destruct (Z.eqb_spec (Z.rem m 4) 3) as [E | NE].
    + pose proof (Z.quot_rem' m 4) as Hq. rewrite E in Hq.
      assert (He : 0 < (m + 1) ÷ 4).
      { replace ((m + 1) ÷ 4) with (m ÷ 4 + 1)
          by (apply Z.quot_unique with (r := 0); lia). lia. }
      rewrite modPow_correct by lia. cbn [bind].
      rewrite mod_pos by lia. cbn [bind].
      rewrite (closed_form_root m u s0 Hprime E Hs), Z.eqb_refl.
      eexists. reflexivity.
    + destruct Hcase as [E | Hnz]; [contradiction |].
      apply (modSqrt_search_complete m (u mod m) _ ltac:(lia) 1 (s0 mod m)).
      * pose proof (Z.mod_pos_bound s0 m ltac:(lia)) as Hb.
        assert (s0 mod m <> 0).
        { intros E0. apply Hnz. rewrite <- Hs.
          rewrite Z.mul_mod, E0 by lia. reflexivity. }
        rewrite Z2Nat.id by lia. lia.
      * rewrite <- Z.mul_mod by lia. exact Hs.
  - intros Hnone. destruct Htotal as [[v |] Ho]; [| exact Ho].
    exfalso. exact (Hnone v (Hsound v Ho)).
  - intros Hbranch Hzero. unfold modSqrt.
    rewrite mod_pos by lia. cbn [bind].
    rewrite bigint_rem_ok by lia. cbn [bind].
    destruct (Z.eqb_spec (Z.rem m 4) 3) as [E | NE]; [contradiction |].
    rewrite Hzero. apply modSqrt_search_zero; [exact Hprime | lia |].
    rewrite Z2Nat.id by lia. lia.
Qed.

(** C5: the exhaustive search starts at [i = 1n], so for a prime modulus
    that is not [3 (mod 4)] it never tries the root [0]:
    [modSqrt(0n, 5n)] returns [null] although [0 * 0 = 0 (mod 5)]; so does
    [modSqrt(0n, 1021n)] for the modulus of [DEMO_CURVE]. The closed-form
    branch does return the root [0]: [modSqrt(0n, 11n)] is [0n]. *)
Theorem modSqrt_misses_zero :
  Z.prime 5
  /\ modSqrt 0 5 = Ok None
  /\ (0 * 0) mod 5 = 0 mod 5
  /\ modSqrt 0 1021 = Ok None
  /\ modSqrt 0 11 = Ok (Some 0).
Proof.
  split; [exact prime_5 |].
  split; [reflexivity |].
  split; [reflexivity |].
  split; vm_compute; reflexivity.
Qed.

(** ** Failing inputs of the point arithmetic *)

(** C2: [(0, 1)] and [(2, 1)] lie on [y^2 = x^3 + x + 1 (mod 5)], differ
    and do not span a vertical chord, so the chord law gives
    [lambda = 0] and the point [(3, 4)]; [pointAdd] returns the point at
    infinity, because the guard takes the coordinate [0n] for a missing
    one. *)
Theorem pointAdd_axis_point :
  Z.prime (p AXIS_CURVE)
  /\ onCurve AXIS_CURVE (affine 0 1) = true
  /\ onCurve AXIS_CURVE (affine 2 1) = true
  /\ run (pointAdd (affine 0 1) (affine 2 1) AXIS_CURVE None) = Ok infinity
  /\ run (pointAdd (affine 2 1) (affine 0 1) AXIS_CURVE None) = Ok infinity
  /\ (let lambda := ((1 - 1) * 3) mod 5 in
      (2 * 3) mod 5 = 1
      /\ (lambda * lambda - 0 - 2) mod 5 = 3
      /\ (lambda * (0 - 3) - 1) mod 5 = 4
      /\ onCurve AXIS_CURVE (affine 3 4) = true).
Proof. split; [exact prime_5 | repeat split]. Qed.

(** C3: on the same curve [P = (3, 1)] has [2P = (0, 1)] on the y-axis.
    With [j = 1] and [k = 3], [pointMultiply(4n, P)] is the point at
    infinity while [pointAdd(pointMultiply(1n, P), pointMultiply(3n, P))]
    is [P]: the guard of [pointAdd] turns every sum with [(0, 1)] into the
    point at infinity. *)
Theorem pointMultiply_not_additive :
  Z.prime (p AXIS_CURVE)
  /\ onCurve AXIS_CURVE (affine 3 1) = true
  /\ run (pointMultiply 0 (affine 3 1) AXIS_CURVE None) = Ok infinity
  /\ run (pointMultiply 2 (affine 3 1) AXIS_CURVE None) = Ok (affine 0 1)
  /\ run (pointMultiply 1 (affine 3 1) AXIS_CURVE None) = Ok (affine 3 1)
  /\ run (pointMultiply 3 (affine 3 1) AXIS_CURVE None) = Ok infinity
  /\ run (pointMultiply (1 + 3) (affine 3 1) AXIS_CURVE None) = Ok infinity
  /\ run (pointAdd (affine 3 1) infinity AXIS_CURVE None) = Ok (affine 3 1).
Proof. split; [exact prime_5 | repeat split; vm_compute; reflexivity]. Qed.

(** ** Failure kinds *)

Lemma modInverse_throws (u m : Z) (e : exn) :
  m <> 0 -> modInverse u m = Throw e -> e = Error NO_INVERSE.
Proof.
  intros Hm. unfold modInverse.
  destruct (negb (old_r _ =? 1)).
  - intros H. injection H as <-. reflexivity.
  - intros H. apply mod_throws in H. destruct H as [H _]. contradiction.
Qed.

Lemma pointAdd_finish_throws (x1 y1 x2 lambda cp : Z) (e : exn) :
  cp <> 0 -> run (pointAdd_finish x1 y1 x2 lambda cp None) <> Throw e.
Proof.
  intros Hp. unfold run, pointAdd_finish. rewrite bindM_lift.
  destruct (mod_ (lambda * lambda - x1 - x2) cp) as [x3 |] eqn:E1.
  - rewrite bindM_lift.
    destruct (mod_ (lambda * (x1 - x3) - y1) cp) as [y3 |] eqn:E2.
    + discriminate.
    + apply mod_throws in E2. destruct E2 as [E2 _]. contradiction.
  - apply mod_throws in E1. destruct E1 as [E1 _]. contradiction.
Qed.

(** With a non-zero modulus the only exception of [pointAdd] is the one
    [modInverse] throws. *)
Lemma pointAdd_throws (P Q : Point) (curve : CurveParams) (e : exn) :
  curve.(p) <> 0 ->
  run (pointAdd P Q curve None) = Throw e -> e = Error NO_INVERSE.
Proof.
  intros Hp. unfold run, pointAdd.
  destruct (isInfinity P); [discriminate |].
  destruct (isInfinity Q); [discriminate |].
  destruct (x P) as [x1 |]; [| discriminate].
  destruct (y P) as [y1 |]; [| discriminate].
  destruct (x Q) as [x2 |]; [| discriminate].
  destruct (y Q) as [y2 |]; [| discriminate].
  destruct ((x1 =? 0) || (y1 =? 0) || (x2 =? 0) || (y2 =? 0));
    [discriminate |].
  destruct ((x1 =? x2) && negb (y1 =? y2)); [discriminate |].
  destruct ((x1 =? x2) && (y1 =? y2)).
  - destruct (y1 =? 0); [discriminate |].
    rewrite bindM_lift.
    destruct (mod_ (3 * x1 * x1 + a curve) (p curve)) as [num |] eqn:E1.
    2:{ apply mod_throws in E1. destruct E1 as [E1 _]. contradiction. }
    rewrite bindM_lift.
    destruct (modInverse (2 * y1) (p curve)) as [den |] eqn:E2.
    2:{ intros H. injection H as <-. exact (modInverse_throws _ _ _ Hp E2). }
    rewrite bindM_lift.
    destruct (mod_ (num * den) (p curve)) as [lambda |] eqn:E3.
    2:{ apply mod_throws in E3. destruct E3 as [E3 _]. contradiction. }
    rewrite bindM_emit. intros H.
    exfalso. exact (pointAdd_finish_throws _ _ _ _ _ e Hp H).
  - rewrite bindM_lift.
    destruct (mod_ (y2 - y1) (p curve)) as [num |] eqn:E1.
    2:{ apply mod_throws in E1. destruct E1 as [E1 _]. contradiction. }
    rewrite bindM_lift.
    destruct (mod_ (x2 - x1) (p curve)) as [dx |] eqn:E0.
    2:{ apply mod_throws in E0. destruct E0 as [E0 _]. contradiction. }
    rewrite bindM_lift.
    destruct (modInverse dx (p curve)) as [den |] eqn:E2.
    2:{ intros H. injection H as <-. exact (modInverse_throws _ _ _ Hp E2). }
    rewrite bindM_lift.
    destruct (mod_ (num * den) (p curve)) as [lambda |] eqn:E3.
    2:{ apply mod_throws in E3. destruct E3 as [E3 _]. contradiction. }
    rewrite bindM_emit. intros H.
    exfalso. exact (pointAdd_finish_throws _ _ _ _ _ e Hp H).
Qed.

Lemma pointMultiply_loop_throws (curve : CurveParams) (e : exn)
    (chars : list ascii) :
  curve.(p) <> 0 ->
  forall (pos : nat) (R N : Point),
    run (pointMultiply_loop chars pos R N curve None) = Throw e ->
    e = Error NO_INVERSE.
Proof.
  intros Hp.
  induction chars as [| c rest IH]; intros pos R N H; [discriminate |].
  rewrite pointMultiply_loop_cons in H. unfold multiply_turn in H.
  destruct (Ascii.eqb c "1"%char).
  - destruct (run (pointAdd R N curve None)) as [R' |] eqn:E1; cbn [bind] in H.
    2:{ injection H as <-. exact (pointAdd_throws _ _ _ _ Hp E1). }
    destruct (run (pointAdd N N curve None)) as [N' |] eqn:E2; cbn [bind] in H.
    2:{ injection H as <-. exact (pointAdd_throws _ _ _ _ Hp E2). }
    exact (IH _ _ _ H).
  - cbn [bind] in H.
    destruct (run (pointAdd N N curve None)) as [N' |] eqn:E2; cbn [bind] in H.
    2:{ injection H as <-. exact (pointAdd_throws _ _ _ _ Hp E2). }
    exact (IH _ _ _ H).
Qed.

Lemma pointMultiply_throws (k : Z) (P : Point) (curve : CurveParams) (e : exn) :
  curve.(p) <> 0 ->
  run (pointMultiply k P curve None) = Throw e -> e = Error NO_INVERSE.
Proof.
  intros Hp H. unfold pointMultiply, run in H. rewrite bindM_emit in H.
  exact (pointMultiply_loop_throws curve e _ Hp _ _ _ H).
Qed.

Lemma unembedMessageKoblitz_throws (P : Point) (K : Z) (e : exn) :
  K <> 0 -> unembedMessageKoblitz P K = Throw e -> e = Error INVALID_POINT.
Proof.
  intros HK. unfold unembedMessageKoblitz, bigint_div.
  destruct (isInfinity P); [intros H; injection H as <-; reflexivity |].
  destruct (x P) as [px |]; [| intros H; injection H as <-; reflexivity].
  destruct (Z.eqb_spec K 0); [contradiction | discriminate].
Qed.

Lemma unembedMessageKoblitz_infinite (P : Point) (K : Z) :
  isInfinity P = true \/ x P = None ->
  unembedMessageKoblitz P K = Throw (Error INVALID_POINT).
Proof.
  unfold unembedMessageKoblitz.
  intros [H | H]; rewrite H; [reflexivity |].
  destruct (isInfinity P); reflexivity.
Qed.

(** ** ElGamal sessions *)

Lemma bindM_get {B : Type} (k : DemoState -> M DemoState B) (st : DemoState) :
  bindM get k st = k st st.
Proof. reflexivity. Qed.

(** Multiplying the literal point at infinity gives it back, whatever the
    scalar and the curve: both calls of [pointAdd] in a turn leave on the
    first infinity test. *)
Lemma pointMultiply_loop_literal_infinity (curve : CurveParams)
    (chars : list ascii) :
  forall pos : nat,
    run (pointMultiply_loop chars pos infinity infinity curve None)
    = Ok infinity.
Proof.
  induction chars as [| c rest IH]; intros pos; [reflexivity |].
  rewrite pointMultiply_loop_cons. unfold multiply_turn.
  destruct (Ascii.eqb c "1"%char); cbn; apply IH.
Qed.

Lemma pointMultiply_literal_infinity (k : Z) (curve : CurveParams) :
  run (pointMultiply k infinity curve None) = Ok infinity.
Proof.
  unfold pointMultiply, run. rewrite bindM_emit.
  apply (pointMultiply_loop_literal_infinity curve _ 0%nat).
Qed.

(** [handleDecrypt] has no case for a shared secret [S] without a
    y-coordinate: [mod(-S.y!, p)] throws a [TypeError], nothing catches it
    and the state is left as it was. *)
Lemma handleDecrypt_missing_y (curve : CurveParams) (st : DemoState)
    (C1 C2 S0 : Point) :
  cipherC1 st = Some C1 ->
  cipherC2 st = Some C2 ->
  run (pointMultiply (privKey st) C1 curve None) = Ok S0 ->
  y S0 = None ->
  handleDecrypt curve st = (Throw TypeError, st).
Proof.
  intros H1 H2 HS Hy.
  unfold handleDecrypt. rewrite bindM_get, H1, H2.
  rewrite bindM_pointMultiply, HS.
  rewrite bindM_lift, Hy. reflexivity.
Qed.

(** So every ciphertext whose [C1] is the point at infinity stops
    [handleDecrypt], on every curve and for every private key. *)
Lemma handleDecrypt_infinite_C1 (curve : CurveParams) (st : DemoState)
    (C2 : Point) :
  cipherC1 st = Some infinity ->
  cipherC2 st = Some C2 ->
  handleDecrypt curve st = (Throw TypeError, st).
Proof.
  intros H1 H2.
  apply (handleDecrypt_missing_y curve st infinity C2 infinity H1 H2);
    [apply pointMultiply_literal_infinity | reflexivity].
Qed.

(** When the point recovered by decryption is the point at infinity (or has
    no x-coordinate), [handleDecrypt] with the Koblitz method stops on the
    [Error] that [unembedMessageKoblitz] throws: the handler has no
    [try]/[catch], the recovered point is already stored, and neither a
    message nor a log is published. *)
Lemma handleDecrypt_invalid_point (curve : CurveParams) (st : DemoState)
    (C1 C2 S0 M0 : Point) (ny : Z) :
  cipherC1 st = Some C1 ->
  cipherC2 st = Some C2 ->
  embeddingMethod st = koblitz ->
  run (pointMultiply (privKey st) C1 curve None) = Ok S0 ->
  negate_y (y S0) (p curve) = Ok ny ->
  run (pointAdd C2 (mkPoint (x S0) (Some ny) (isInfinity S0)) curve None)
  = Ok M0 ->
  isInfinity M0 = true \/ x M0 = None ->
  fst (handleDecrypt curve st) = Throw (Error INVALID_POINT)
  /\ decryptedPoint (snd (handleDecrypt curve st)) = Some M0
  /\ decryptedMsg (snd (handleDecrypt curve st)) = decryptedMsg st
  /\ decryptLogs (snd (handleDecrypt curve st)) = decryptLogs st.
Proof.
  intros H1 H2 Hk HS Hny HM Hinf.
  unfold handleDecrypt. rewrite bindM_get, H1, H2.
  rewrite bindM_pointMultiply, HS.
  rewrite bindM_lift, Hny.
  rewrite bindM_pointAdd, HM.
  unfold bindM at 1. unfold setDecryptedPoint at 1, update at 1.
  rewrite Hk, bindM_lift.
  rewrite (unembedMessageKoblitz_infinite M0 20 Hinf).
  cbn. repeat split.
Qed.

(** C7: the code departs from the claim. On [TOY_CURVE], with the private
    key [2], the random number [13] (the order of [G]) and the message [0],
    whose Koblitz embedding is the curve point [(2, 4)], [handleEncrypt]
    produces the ciphertext [C1 = infinity], [C2 = (2, 4)]. The shared secret
    [S = d * C1] that [handleDecrypt] computes is the point at infinity, and
    the handler stops on the [TypeError] raised by [mod(-S.y!, p)] for the
    missing [S.y]: it is not an [Error] of the engine, nothing catches it,
    and no point, message or log is published, with either embedding
    method. *)
Theorem decrypt_infinite_secret_crashes :
  embedMessageKoblitz 0 TOY_CURVE 20 = Ok (affine 2 4)
  /\ onCurve TOY_CURVE (affine 2 4) = true
  /\ forall how : method,
       let st := snd ((_ <~ generateKeys TOY_CURVE ;; handleEncrypt TOY_CURVE)
                        (session 2 13 (affine 2 4) how)) in
       pubKey st = Some (affine 5 9)
       /\ cipherC1 st = Some infinity
       /\ cipherC2 st = Some (affine 2 4)
       /\ run (pointMultiply (privKey st) infinity TOY_CURVE None)
          = Ok infinity
       /\ negate_y (y infinity) (p TOY_CURVE) = Throw TypeError
       /\ handleDecrypt TOY_CURVE st = (Throw TypeError, st)
       /\ decryptedPoint st = None
       /\ decryptedMsg st = EmptyString
       /\ decryptLogs st = []
       /\ forall message,
            fst (handleDecrypt TOY_CURVE st) <> Throw (Error message).
Proof.
  split; [vm_compute; reflexivity |]. split; [reflexivity |].
  intros how. destruct how; vm_compute; repeat split; discriminate.
Qed.

(** The generator of [DEMO_CURVE] does not satisfy the equation of
    [DEMO_CURVE], and [n = 1039] is not a period of it: [13 * G] and
    [1039 * G] share the x-coordinate [100] and [1040 * G] is not [G]. *)
Lemma demo_generator_off_curve :
  onCurve DEMO_CURVE (G DEMO_CURVE) = false
  /\ (195 * 195) mod 1021 = 248
  /\ (5 ^ 3 + 2 * 5 + 2) mod 1021 = 137
  /\ run (pointMultiply 1039 (G DEMO_CURVE) DEMO_CURVE None)
     = Ok (affine 100 354)
  /\ run (pointMultiply 1040 (G DEMO_CURVE) DEMO_CURVE None)
     = Ok (affine 21 681).
Proof. repeat split; vm_compute; reflexivity. Qed.

(** C1: on [y^2 = x^3 + x + 1 (mod 5)] with generator [(2, 4)] of order
    [3], private key [d = 2] and ephemeral [k = 2], the message point
    [Pm = (0, 1)] lies on the curve (it is the Koblitz embedding of the
    message [0]), yet the guard of [pointAdd] makes [C2 = Pm + S] the point
    at infinity, and decryption returns [-S = (2, 1)] instead of [Pm].
    On [TOY_CURVE], with [k = 13] (the order of [G]), decryption stops on a
    [TypeError] instead of returning [Pm]. On [DEMO_CURVE], whose generator
    is off the curve, with [d = 15], [k = 77] and the embedding [(41, 82)]
    of the message [2], the shared secret [(41, 278)] has the x-coordinate
    of [Pm]: [C2] is the point at infinity and decryption returns
    [(41, 743)]. *)
Theorem elgamal_roundtrip_fails :
  onCurve AXIS_CURVE (G AXIS_CURVE) = true
  /\ onCurve AXIS_CURVE (affine 0 1) = true
  /\ embedMessageKoblitz 0 AXIS_CURVE 20 = Ok (affine 0 1)
  /\ (let out :=
        encrypt_then_decrypt AXIS_CURVE (session 2 2 (affine 0 1) koblitz) in
      fst out = Ok tt
      /\ pubKey (snd out) = Some (affine 2 1)
      /\ cipherC1 (snd out) = Some (affine 2 1)
      /\ cipherC2 (snd out) = Some infinity
      /\ decryptedPoint (snd out) = Some (affine 2 1))
  /\ onCurve TOY_CURVE (affine 3 5) = true
  /\ (let out :=
        encrypt_then_decrypt TOY_CURVE (session 2 13 (affine 3 5) koblitz) in
      fst out = Throw TypeError
      /\ cipherC1 (snd out) = Some infinity
      /\ cipherC2 (snd out) = Some (affine 3 5)
      /\ decryptedPoint (snd out) = None)
  /\ onCurve DEMO_CURVE (affine 41 82) = true
  /\ embedMessageKoblitz 2 DEMO_CURVE 20 = Ok (affine 41 82)
  /\ (let out :=
        encrypt_then_decrypt DEMO_CURVE (session 15 77 (affine 41 82) koblitz) in
      fst out = Ok tt
      /\ pubKey (snd out) = Some (affine 981 659)
      /\ cipherC2 (snd out) = Some infinity
      /\ decryptedPoint (snd out) = Some (affine 41 743)).
Proof. vm_compute. repeat split. Qed.

(** ** The chord and tangent law away from the axes *)

Lemma small_difference_mod (u v m : Z) :
  0 <= u < m -> 0 <= v < m -> u <> v -> 1 <= (v - u) mod m < m.
Proof.
  intros Hu Hv Hne.
  destruct (Z_lt_le_dec u v) as [Hlt | Hge].
  - rewrite Z.mod_small by lia. lia.
  - rewrite <- (Z.mod_add (v - u) 1 m) by lia.
    rewrite Z.mod_small by lia. lia.
Qed.

(** For an odd prime modulus and points with coordinates in [(0, p)],
    [pointAdd] follows the chord and tangent law unless the chord is
    vertical. *)
Lemma pointAdd_chord_tangent (curve : CurveParams) (x1 y1 x2 y2 : Z) :
  Z.prime curve.(p) -> 2 < curve.(p) ->
  0 < x1 < curve.(p) -> 0 < y1 < curve.(p) ->
  0 < x2 < curve.(p) -> 0 < y2 < curve.(p) ->
  ~ (x1 = x2 /\ y1 <> y2) ->
  exists R,
    run (pointAdd (affine x1 y1) (affine x2 y2) curve None) = Ok R
    /\ chord_tangent_law curve x1 y1 x2 y2 R.
Proof.
  intros Hprime Hodd Hx1 Hy1 Hx2 Hy2 Hnv.
  set (cp := p curve) in *.
  unfold run, pointAdd, chord_tangent_law. cbn [affine isInfinity x y].
  fold cp.
  replace ((x1 =? 0) || (y1 =? 0) || (x2 =? 0) || (y2 =? 0)) with false
    by (symmetry; rewrite !orb_false_iff, !Z.eqb_neq; lia).
  replace ((x1 =? x2) && negb (y1 =? y2)) with false.
  2:{ symmetry. apply not_true_is_false. intros H.
      apply andb_true_iff in H. destruct H as [H1 H2].
      apply negb_true_iff in H2. apply Z.eqb_eq in H1. apply Z.eqb_neq in H2.
      tauto. }
  destruct ((x1 =? x2) && (y1 =? y2)) eqn:Esame.
  - replace (y1 =? 0) with false by (symmetry; apply Z.eqb_neq; lia).
    rewrite bindM_lift, mod_pos by lia. cbv beta iota.
    assert (Hg : Z.gcd (2 * y1) cp = 1).
    { apply Z.coprime_mul_l; unfold Z.coprime; rewrite Z.gcd_comm;
        apply Z.coprime_prime_small; trivial; lia. }
    destruct (modInverse_nonneg (2 * y1) cp ltac:(lia) ltac:(lia))
      as [Hok _].
    destruct (Hok Hg) as (v & Hv & Hrange & Hinv & _).
    rewrite bindM_lift, Hv.
    rewrite bindM_lift, mod_pos by lia. cbv beta iota.
    rewrite bindM_emit. unfold pointAdd_finish.
    rewrite bindM_lift, mod_pos by lia. cbv beta iota.
    rewrite bindM_lift, mod_pos by lia. cbv beta iota.
    rewrite bindM_emit. cbn [ret fst].
    eexists. split; [reflexivity |].
    exists v. eexists _, _, _.
    split; [split; [split; assumption | reflexivity] |].
    rewrite Z.mul_mod_idemp_l by lia.
    repeat split.
  - assert (Hne : x1 <> x2).
    { intros ->. apply andb_false_iff in Esame.
      destruct Esame as [E | E]; apply Z.eqb_neq in E; [lia |].
      apply Hnv. split; [reflexivity | exact E]. }
    rewrite bindM_lift, mod_pos by lia. cbv beta iota.
    rewrite bindM_lift, mod_pos by lia. cbv beta iota.
    pose proof (small_difference_mod x1 x2 cp ltac:(lia) ltac:(lia) Hne)
      as Hdx.
    assert (Hg : Z.gcd ((x2 - x1) mod cp) cp = 1).
    { rewrite Z.gcd_comm. apply Z.coprime_prime_small; trivial. }
    destruct (modInverse_nonneg ((x2 - x1) mod cp) cp ltac:(lia) ltac:(lia))
      as [Hok _].
    destruct (Hok Hg) as (v & Hv & Hrange & Hinv & _).
    rewrite bindM_lift, Hv.
    rewrite bindM_lift, mod_pos by lia. cbv beta iota.
    rewrite bindM_emit. unfold pointAdd_finish.
    rewrite bindM_lift, mod_pos by lia. cbv beta iota.
    rewrite bindM_lift, mod_pos by lia. cbv beta iota.
    rewrite bindM_emit. cbn [ret fst].
    eexists. split; [reflexivity |].
    exists v. eexists _, _, _.
    rewrite Z.mul_mod_idemp_l in Hinv by lia.
    split; [split; [split; assumption | reflexivity] |].
    rewrite Z.mul_mod_idemp_l by lia.
    repeat split.
Qed.

(** ** The group of [TOY_CURVE] *)

Lemma forall_below (bound : nat) (Q : Z -> Prop) :
  (forall k : nat, (k < bound)%nat -> Q (Z.of_nat k)) ->
  forall i, 0 <= i < Z.of_nat bound -> Q i.
Proof.
  intros H i Hi. rewrite <- (Z2Nat.id i) by lia. apply H. lia.
Qed.

Ltac below_13 k Hk tac :=
  do 13 (destruct k as [| k]; [tac |]); exfalso; lia.

(** The concrete scenario of the specification on [TOY_CURVE]. *)
Example toy_doubling :
  run (pointAdd (G TOY_CURVE) (G TOY_CURVE) TOY_CURVE None) = Ok (affine 5 9)
  /\ run (pointMultiply 2 (G TOY_CURVE) TOY_CURVE None)
     = run (pointAdd (G TOY_CURVE) (G TOY_CURVE) TOY_CURVE None).
Proof. split; vm_compute; reflexivity. Qed.

Lemma toy_mod (i : Z) : toy (i mod 13) = toy i.
Proof. unfold toy. rewrite Z.mod_mod by lia. reflexivity. Qed.

Lemma toy_add_small :
  forall i, 0 <= i < 13 -> forall j, 0 <= j < 13 ->
    run (pointAdd (toy i) (toy j) TOY_CURVE None) = Ok (toy (i + j)).
Proof.
  intros i Hi. pattern i. apply (forall_below 13); [| exact Hi].
  clear i Hi. intros k Hk.
  below_13 k Hk ltac:(intros j Hj; pattern j;
                      apply (forall_below 13); [| exact Hj];
                      clear j Hj; intros l Hl;
                      below_13 l Hl ltac:(vm_compute; reflexivity)).
Qed.

(** [pointAdd] on the multiples of [G] adds the indices: the thirteen
    points form a cyclic group. *)
Lemma toy_add (i j : Z) :
  run (pointAdd (toy i) (toy j) TOY_CURVE None) = Ok (toy (i + j)).
Proof.
  replace (toy (i + j)) with (toy (i mod 13 + j mod 13)).
  - rewrite <- (toy_mod i), <- (toy_mod j).
    apply toy_add_small; apply Z.mod_pos_bound; lia.
  - rewrite <- toy_mod, <- Z.add_mod by lia. apply toy_mod.
Qed.

Lemma list_ascii_of_string_app (s1 s2 : string) :
  list_ascii_of_string (s1 ++ s2)
  = (list_ascii_of_string s1 ++ list_ascii_of_string s2)%list.
Proof.
  induction s1 as [| c s1 IH]; [reflexivity |].
  cbn. rewrite IH. reflexivity.
Qed.

Lemma multiply_turn_toy (c : ascii) (r0 n0 : Z) :
  multiply_turn c (toy r0) (toy n0) TOY_CURVE
  = Ok (toy (if Ascii.eqb c "1"%char then r0 + n0 else r0), toy (n0 + n0)).
Proof.
  unfold multiply_turn. rewrite !toy_add.
  destruct (Ascii.eqb c "1"%char); reflexivity.
Qed.

Lemma toy_multiply_loop (q : positive) :
  forall (pos : nat) (r0 n0 : Z),
    run (pointMultiply_loop (rev (list_ascii_of_string (binary_digits q))) pos
                            (toy r0) (toy n0) TOY_CURVE None)
    = Ok (toy (r0 + Z.pos q * n0)).
Proof.
  induction q as [q IH | q IH |]; intros pos r0 n0; cbn [binary_digits].
  - rewrite list_ascii_of_string_app, rev_app_distr. cbn [list_ascii_of_string rev app].
    rewrite pointMultiply_loop_cons, multiply_turn_toy. cbn [bind fst snd].
    rewrite IH. change (Ascii.eqb "1" "1") with true. cbv iota.
    f_equal. f_equal. lia.
  - rewrite list_ascii_of_string_app, rev_app_distr. cbn [list_ascii_of_string rev app].
    rewrite pointMultiply_loop_cons, multiply_turn_toy. cbn [bind fst snd].
    rewrite IH. change (Ascii.eqb "0" "1") with false. cbv iota.
    f_equal. f_equal. lia.
  - cbn [list_ascii_of_string rev app].
    rewrite pointMultiply_loop_cons, multiply_turn_toy. cbn [bind fst snd].
    change (Ascii.eqb "1" "1") with true. cbv iota.
    cbn [pointMultiply_loop]. unfold run, ret. cbn [fst].
    f_equal. f_equal. lia.
Qed.

(** [pointMultiply(k, i * G)] is [(k * i) * G] for every [k >= 0]. *)
Lemma toy_multiply (k i : Z) :
  0 <= k ->
  run (pointMultiply k (toy i) TOY_CURVE None) = Ok (toy (k * i)).
Proof.
  intros Hk. unfold pointMultiply, run. rewrite bindM_emit.
  destruct k as [| q | q]; [| | lia].
  - cbn [toString2].
    change (run (pointMultiply_loop ["0"%char] 0 (toy 0) (toy i) TOY_CURVE None)
            = Ok (toy (0 * i))).
    rewrite pointMultiply_loop_cons, multiply_turn_toy. reflexivity.
  - cbn [toString2].
    exact (toy_multiply_loop q 0%nat 0 i).
Qed.

Ltac find_toy i :=
  lazymatch i with
  | 13 => fail "not a multiple of G"
  | _ => first [ exists i; split; [lia | reflexivity]
               | let j := eval vm_compute in (i + 1) in find_toy j ]
  end.

Ltac below_11 k Hk tac :=
  do 11 (destruct k as [| k]; [tac |]); exfalso; lia.

(** Every point of [TOY_CURVE] is a non-zero multiple of [G]. *)
Lemma toy_points_complete (P : Point) :
  onCurve TOY_CURVE P = true -> exists i, 1 <= i < 13 /\ P = toy i.
Proof.
  destruct P as [[px |] [py |] inf]; try discriminate.
  unfold onCurve. cbn [x y isInfinity TOY_CURVE p a b].
  rewrite !andb_true_iff, negb_true_iff, !Z.leb_le, !Z.ltb_lt.
  intros [[[[[Hinf Hx0] Hx1] Hy0] Hy1] Heq]. subst inf.
  assert (Hx : 0 <= px < 11) by lia. assert (Hy : 0 <= py < 11) by lia.
  clear Hx0 Hx1 Hy0 Hy1. revert Heq.
  pattern px. apply (forall_below 11); [| exact Hx]. clear px Hx.
  intros k Hk.
  below_11 k Hk ltac:(pattern py; apply (forall_below 11); [| exact Hy];
                      clear py Hy; intros l Hl;
                      below_11 l Hl ltac:(intros Heq; vm_compute in Heq;
                                          first [discriminate Heq | find_toy 1])).
Qed.

(** X14: On [TOY_CURVE], where no point has a zero coordinate, scalar
    multiplication is additive and [pointMultiply(0n, P)] is the point at
    infinity. *)
Lemma toy_multiply_additive (j k : Z) (P : Point) :
  0 <= j -> 0 <= k ->
  onCurve TOY_CURVE P = true ->
  exists A B,
    run (pointMultiply j P TOY_CURVE None) = Ok A
    /\ run (pointMultiply k P TOY_CURVE None) = Ok B
    /\ run (pointMultiply (j + k) P TOY_CURVE None)
       = run (pointAdd A B TOY_CURVE None)
    /\ run (pointMultiply 0 P TOY_CURVE None) = Ok infinity.
Proof.
  intros Hj Hk HP.
  destruct (toy_points_complete P HP) as (i & _ & ->).
  exists (toy (j * i)), (toy (k * i)).
  rewrite !toy_multiply, toy_add by lia.
  repeat split. f_equal. f_equal. ring.
Qed.

Lemma toy_opp_mod (j : Z) : toy (- j) = toy (- (j mod 13)).
Proof.
  rewrite <- (toy_mod (- j)), <- (toy_mod (- (j mod 13))). f_equal.
  pose proof (Z.div_mod j 13 ltac:(lia)) as Hd.
  replace (- (j mod 13)) with (- j + (j / 13) * 13) by lia.
  rewrite Z.mod_add by lia. reflexivity.
Qed.

(** The negation that [handleDecrypt] builds from a non-zero multiple of
    [G] is the opposite multiple. *)
Lemma toy_negate (j : Z) :
  j mod 13 <> 0 ->
  exists ny,
    negate_y (y (toy j)) (p TOY_CURVE) = Ok ny
    /\ mkPoint (x (toy j)) (Some ny) (isInfinity (toy j)) = toy (- j).
Proof.
  intros Hnz. rewrite toy_opp_mod, <- (toy_mod j).
  pose proof (Z.mod_pos_bound j 13 ltac:(lia)) as Hb.
  revert Hnz. generalize (j mod 13) Hb. clear j Hb.
  intros i Hi. pattern i. apply (forall_below 13); [| exact Hi].
  clear i Hi. intros k Hk Hnz.
  destruct k as [| k]; [exfalso; apply Hnz; reflexivity |].
  do 12 (destruct k as [| k];
         [eexists; split; vm_compute; reflexivity |]).
  exfalso; lia.
Qed.

Lemma toy_unembed (i : Z) :
  i mod 13 <> 0 -> exists m, unembedMessageKoblitz (toy i) 20 = Ok m.
Proof.
  intros Hnz. rewrite <- toy_mod.
  pose proof (Z.mod_pos_bound i 13 ltac:(lia)) as Hb.
  revert Hnz. generalize (i mod 13) Hb. clear i Hb.
  intros i Hi. pattern i. apply (forall_below 13); [| exact Hi].
  clear i Hi. intros k Hk Hnz.
  destruct k as [| k]; [exfalso; apply Hnz; reflexivity |].
  do 12 (destruct k as [| k]; [eexists; vm_compute; reflexivity |]).
  exfalso; lia.
Qed.

Lemma bindM_update {B : Type} (f : DemoState -> DemoState)
    (k : unit -> M DemoState B) (st : DemoState) :
  bindM (update f) k st = k tt (f st).
Proof. reflexivity. Qed.

Ltac simpl_state :=
  cbn [privKey pubKey embeddingMethod embeddedPoint randomK cipherC1 cipherC2
       encryptLogs decryptedPoint decryptedMsg decryptLogs].

(** X15: On [TOY_CURVE] the ElGamal round trip holds whenever the shared secret
    is not the point at infinity, that is when [13] divides neither [d] nor
    [k]: decryption stores the message point again. *)
Lemma toy_elgamal_roundtrip (d k : Z) (Pm : Point) (how : method) :
  0 <= d -> 0 <= k -> (d * k) mod 13 <> 0 ->
  onCurve TOY_CURVE Pm = true ->
  exists st,
    encrypt_then_decrypt TOY_CURVE (session d k Pm how) = (Ok tt, st)
    /\ decryptedPoint st = Some Pm.
Proof.
  intros Hd Hk Hdk HPm.
  destruct (toy_points_complete Pm HPm) as (i & Hi & ->).
  assert (Hi' : i mod 13 <> 0) by (rewrite Z.mod_small; lia).
  assert (Hs : (d * (k * 1)) mod 13 <> 0) by (rewrite Z.mul_1_r; exact Hdk).
  destruct (toy_negate (d * (k * 1)) Hs) as (ny & Hny & Hneg).
  destruct (toy_unembed i Hi') as (m & Hm).
  unfold encrypt_then_decrypt, session.
  change (G TOY_CURVE) with (toy 1).
  (* generateKeys *)
  unfold bindM at 1. unfold generateKeys at 1. simpl_state.
  change (G TOY_CURVE) with (toy 1).
  rewrite pointMultiply_None, toy_multiply by lia.
  unfold setPubKey at 1, update at 1. simpl_state.
  (* handleEncrypt *)
  unfold handleEncrypt. rewrite bindM_assoc, bindM_get. simpl_state.
  change (G TOY_CURVE) with (toy 1).
  rewrite bindM_assoc, bindM_pointMultiply, toy_multiply by lia.
  rewrite bindM_assoc, bindM_pointMultiply, toy_multiply by lia.
  rewrite bindM_assoc, bindM_pointAdd, toy_add.
  unfold setCipherC1, setCipherC2, setEncryptLogs.
  rewrite bindM_assoc, bindM_update.
  rewrite bindM_assoc, bindM_update.
  rewrite bindM_update. simpl_state.
  (* handleDecrypt *)
  unfold handleDecrypt. rewrite bindM_get. simpl_state.
  rewrite bindM_pointMultiply, toy_multiply by lia.
  rewrite bindM_lift, Hny, Hneg.
  rewrite bindM_pointAdd, toy_add.
  replace (i + k * (d * 1) + - (d * (k * 1))) with i by ring.
  unfold setDecryptedPoint, setDecryptedMsg, setDecryptLogs.
  rewrite bindM_update. simpl_state.
  destruct how.
  - rewrite bindM_lift, Hm. rewrite bindM_update.
    unfold update. eexists. split; reflexivity.
  - rewrite bindM_update.
    unfold update. eexists. split; reflexivity.
Qed.

(** * Further properties of the code *)

(** ** Modular arithmetic *)

Lemma divide_sub_of_quot_rem (u m : Z) : (m | u - Z.rem u m).
Proof.
  exists (u ÷ m). pose proof (Z.quot_rem' u m). lia.
Qed.

(** X1: [mod]: for a positive modulus the result is the residue in [[0, m)]
    congruent to the argument, also for a negative argument; for a negative
    modulus it lies in [(m, 0]]; a zero modulus is a [RangeError]. *)
Theorem mod_behaviour (u m : Z) :
  (0 < m ->
   exists v, mod_ u m = Ok v /\ 0 <= v < m /\ (m | u - v) /\ v = u mod m)
  /\ (m < 0 -> exists v, mod_ u m = Ok v /\ m < v <= 0 /\ (m | u - v))
  /\ (m = 0 -> mod_ u m = Throw RangeError).
Proof.
  split; [| split].
  - intros Hm. exists (u mod m). rewrite mod_pos by assumption.
    split; [reflexivity |]. split; [apply Z.mod_pos_bound; assumption |].
    split; [| reflexivity].
    exists (u / m). pose proof (Z.div_mod u m ltac:(lia)). lia.
  - intros Hm. unfold mod_.
    rewrite (bigint_rem_ok u m) by lia. cbn [bind].
    rewrite bigint_rem_ok by lia.
    eexists. split; [reflexivity |].
    pose proof (Z.rem_bound_abs u m ltac:(lia)) as Hb.
    set (r1 := Z.rem u m) in *.
    pose proof (Z.rem_bound_abs (r1 + m) m ltac:(lia)) as Hb2.
    pose proof (Z.rem_sign_nz (r1 + m) m ltac:(lia)) as Hs.
    split.
    + destruct (Z.eq_dec (Z.rem (r1 + m) m) 0) as [E | NE]; [lia |].
      specialize (Hs NE).
      assert (Hneg : Z.sgn (r1 + m) = -1) by (apply Z.sgn_neg; lia).
      rewrite Hneg in Hs.
      assert (Z.rem (r1 + m) m < 0) by (apply Z.sgn_neg_iff; lia).
      lia.
    + destruct (divide_sub_of_quot_rem u m) as [q1 Hq1]. fold r1 in Hq1.
      destruct (divide_sub_of_quot_rem (r1 + m) m) as [q2 Hq2].
      exists (q1 + q2 - 1). lia.
  - intros ->. reflexivity.
Qed.

Lemma mod_behaviour_witness :
  mod_ (-7) 3 = Ok 2 /\ mod_ (-7) (-3) = Ok (-1)
  /\ mod_ 5 0 = Throw RangeError.
Proof.
  destruct (mod_behaviour (-7) 3) as [H1 _].
  destruct (mod_behaviour (-7) (-3)) as [_ [H2 _]].
  destruct (mod_behaviour 5 0) as [_ [_ H3]].
  destruct (H1 ltac:(lia)) as (v & Hv & _ & _ & Hval).
  destruct (H2 ltac:(lia)) as (w & Hw & _ & _).
  split; [rewrite Hv, Hval; reflexivity |].
  split; [reflexivity |].
  apply H3. reflexivity.
Defined.

(** X2: [modInverse], for a non-negative argument and a modulus above [1]:
    when the gcd is [1] it returns the inverse, which is the only one in
    [[0, m)]; otherwise it throws its error. *)
Theorem modInverse_correct (u m : Z) :
  0 <= u -> 1 < m ->
  (Z.gcd u m = 1 ->
   exists v, modInverse u m = Ok v
             /\ 0 <= v < m
             /\ (u * v) mod m = 1
             /\ forall v', 0 <= v' < m -> (u * v') mod m = 1 -> v' = v)
  /\ (Z.gcd u m <> 1 -> modInverse u m = Throw (Error NO_INVERSE)).
Proof. exact (modInverse_nonneg u m). Qed.

Lemma modInverse_correct_witness :
  (exists v, modInverse 7 1021 = Ok v /\ 0 <= v < 1021 /\ (7 * v) mod 1021 = 1
             /\ forall v', 0 <= v' < 1021 -> (7 * v') mod 1021 = 1 -> v' = v)
  /\ modInverse 6 9 = Throw (Error NO_INVERSE).
Proof.
  split.
  - apply (modInverse_correct 7 1021); [lia | lia | reflexivity].
  - apply (modInverse_correct 6 9); [lia | lia | ].
    vm_compute. discriminate.
Defined.

Lemma egcd_step_bezout (u m : Z) (st : egcd) :
  egcd_bezout u m st -> egcd_bezout u m (egcd_step st).
Proof.
  intros [Ho Hr]. unfold egcd_bezout, egcd_step.
  cbn [old_r r old_s s old_t t].
  split; [exact Hr |].
  set (q := st.(old_r) ÷ st.(r)). rewrite Ho, Hr. ring.
Qed.

Lemma egcd_loop_bezout (u m : Z) (fuel : nat) :
  forall st, egcd_bezout u m st -> egcd_bezout u m (egcd_loop fuel st).
Proof.
  induction fuel as [| fuel IH]; intros st Hst; [exact Hst |].
  cbn [egcd_loop].
  destruct (st.(r) =? 0); [exact Hst |].
  apply IH, egcd_step_bezout, Hst.
Qed.

(** X3: [modInverse] never returns a wrong value: for every argument, negative
    ones included, and every positive modulus, whatever it returns lies in
    [[0, m)] and is an inverse. *)
Theorem modInverse_sound (u m v : Z) :
  0 < m ->
  modInverse u m = Ok v ->
  0 <= v < m /\ (u * v) mod m = 1 mod m.
Proof.
  intros Hm. unfold modInverse.
  assert (Hinit : egcd_bezout u m (mkEgcd u m 1 0 0 1)).
  { unfold egcd_bezout. cbn [old_r r old_s s old_t t]. split; ring. }
  pose proof (egcd_loop_bezout u m (egcd_fuel m) _ Hinit) as [Ho _].
  set (st := egcd_loop (egcd_fuel m) (mkEgcd u m 1 0 0 1)) in *.
  destruct (Z.eqb_spec (old_r st) 1) as [E | NE]; cbn [negb];
    [| discriminate].
  rewrite mod_pos by assumption. intros H. injection H as <-.
  split; [apply Z.mod_pos_bound; assumption |].
  rewrite Z.mul_mod_idemp_r by lia.
  replace (u * old_s st) with (1 + (- old_t st) * m) by lia.
  apply Z.mod_add. lia.
Qed.

Lemma modInverse_sound_witness :
  0 <= 2 < 5 /\ (-2 * 2) mod 5 = 1 mod 5.
Proof.
  apply (modInverse_sound (-2) 5 2); [lia | reflexivity].
Defined.

(** X4: [modPow]: for a positive modulus and a positive exponent it returns the
    reduced power; an exponent that is zero or negative makes it return
    [1], not reduced (so [modPow(b, 0n, 1n)] is [1n]); a zero modulus is a
    [RangeError]. *)
Theorem modPow_behaviour (base e m : Z) :
  (0 < m -> 0 < e -> modPow base e m = Ok ((base ^ e) mod m))
  /\ (m <> 0 -> e <= 0 -> modPow base e m = Ok 1)
  /\ (m = 0 -> modPow base e m = Throw RangeError).
Proof.
  split; [| split].
  - apply modPow_correct.
  - intros Hm He. unfold modPow, mod_.
    rewrite (bigint_rem_ok base m) by assumption. cbn [bind].
    rewrite bigint_rem_ok by assumption. cbn [bind].
    destruct e as [| q | q]; [reflexivity | lia | reflexivity].
  - intros ->. reflexivity.
Qed.

Lemma modPow_behaviour_witness :
  modPow 3 200 1021 = Ok ((3 ^ 200) mod 1021)
  /\ modPow 7 0 1 = Ok 1
  /\ modPow 7 (-3) 11 = Ok 1
  /\ modPow 7 5 0 = Throw RangeError.
Proof.
  split; [apply (modPow_behaviour 3 200 1021); lia |].
  split; [apply (modPow_behaviour 7 0 1); lia |].
  split; [apply (modPow_behaviour 7 (-3) 11); lia |].
  apply (modPow_behaviour 7 5 0). reflexivity.
Defined.

Lemma modSqrt_positive (u m : Z) :
  0 < m ->
  exists o,
    modSqrt u m = Ok o
    /\ forall v, o = Some v -> 0 <= v < m /\ (v * v) mod m = u mod m.
Proof.
  intros Hm.
  assert (Hroot : forall v, modSqrt u m = Ok (Some v) ->
                            (v * v) mod m = u mod m).
  { intros v. apply modSqrt_sound. assumption. }
  revert Hroot. unfold modSqrt.
  rewrite mod_pos by assumption. cbn [bind].
  rewrite bigint_rem_ok by lia. cbn [bind].
  destruct (Z.eqb_spec (Z.rem m 4) 3) as [E | NE].
  - pose proof (Z.quot_rem' m 4) as Hq. rewrite E in Hq.
    assert (He : 0 < (m + 1) ÷ 4).
    { replace ((m + 1) ÷ 4) with (m ÷ 4 + 1)
        by (apply Z.quot_unique with (r := 0); lia).
      assert (0 <= m ÷ 4) by (apply Z.quot_pos; lia). lia. }
    rewrite modPow_correct by assumption. cbn [bind].
    rewrite mod_pos by assumption. cbn [bind].
    destruct (_ =? _); intros Hroot; eexists; (split; [reflexivity |]).
    + intros v Hv. injection Hv as <-.
      split; [apply Z.mod_pos_bound; assumption | apply Hroot; reflexivity].
    + discriminate.
  - intros Hroot.
    destruct (modSqrt_search_total m (u mod m) (Z.to_nat (m - 1)) Hm 1)
      as [o Ho].
    rewrite Ho in *. exists o. split; [reflexivity |].
    intros v ->. split; [| apply Hroot; reflexivity].
    apply modSqrt_search_sound in Ho. destruct Ho as [_ Hr].
    rewrite Z2Nat.id in Hr by lia. lia.
Qed.

(** X5: [modSqrt] for a positive modulus, prime or not: it never throws, and
    whatever it returns is a square root of the argument in [[0, m)]. *)
Theorem modSqrt_positive_modulus (u m : Z) :
  0 < m ->
  exists o,
    modSqrt u m = Ok o
    /\ forall v, o = Some v -> 0 <= v < m /\ (v * v) mod m = u mod m.
Proof. exact (modSqrt_positive u m). Qed.

Lemma modSqrt_positive_modulus_witness :
  exists o, modSqrt 10 15 = Ok o
            /\ forall v, o = Some v -> 0 <= v < 15 /\ (v * v) mod 15 = 10 mod 15.
Proof. apply (modSqrt_positive_modulus 10 15). lia. Defined.

(** X6: [modSqrt] for a prime modulus: it returns a root whenever one exists,
    with one exception, the residue [0] outside the branch
    [m = 3 (mod 4)], for which it returns [null]; it returns [null]
    whenever there is no root. *)
Theorem modSqrt_prime_modulus (u m : Z) :
  Z.prime m ->
  (Z.rem m 4 = 3 \/ u mod m <> 0 ->
   (exists s0, (s0 * s0) mod m = u mod m) ->
   exists v, modSqrt u m = Ok (Some v) /\ (v * v) mod m = u mod m)
  /\ ((forall s0, (s0 * s0) mod m <> u mod m) -> modSqrt u m = Ok None)
  /\ (Z.rem m 4 <> 3 -> u mod m = 0 -> modSqrt u m = Ok None).
Proof.
  intros Hprime.
  destruct (modSqrt_prime u m Hprime) as (Hsound & Hfind & Hnone & Hzero).
  split; [| split; assumption].
  intros Hcase Hex. destruct (Hfind Hcase Hex) as [v Hv].
  exists v. split; [exact Hv | exact (Hsound v Hv)].
Qed.

Lemma modSqrt_prime_modulus_witness :
  (exists v, modSqrt 9 5 = Ok (Some v) /\ (v * v) mod 5 = 9 mod 5)
  /\ modSqrt 3 5 = Ok None
  /\ modSqrt 10 5 = Ok None.
Proof.
  destruct (modSqrt_prime_modulus 9 5 prime_5) as [H1 _].
  destruct (modSqrt_prime_modulus 3 5 prime_5) as [_ [H2 _]].
  destruct (modSqrt_prime_modulus 10 5 prime_5) as [_ [_ H3]].
  split; [| split].
  - apply H1; [right; vm_compute; discriminate |].
    exists 3. reflexivity.
  - apply H2. intros s0. rewrite Z.mul_mod by lia.
    pose proof (Z.mod_pos_bound s0 5 ltac:(lia)) as Hb.
    assert (Hc : s0 mod 5 = 0 \/ s0 mod 5 = 1 \/ s0 mod 5 = 2
                 \/ s0 mod 5 = 3 \/ s0 mod 5 = 4) by lia.
    destruct Hc as [-> | [-> | [-> | [-> | ->]]]]; vm_compute; discriminate.
  - apply H3; [vm_compute; discriminate | reflexivity].
Defined.

(** ** Point addition *)

(** The chord branch of [pointAdd] in closed form. *)
Lemma pointAdd_chord_value (curve : CurveParams) (x1 y1 x2 y2 : Z) :
  0 < curve.(p) ->
  x1 <> 0 -> y1 <> 0 -> x2 <> 0 -> y2 <> 0 -> x1 <> x2 ->
  run (pointAdd (mkPoint (Some x1) (Some y1) false)
                (mkPoint (Some x2) (Some y2) false) curve None)
  = (v <- modInverse ((x2 - x1) mod curve.(p)) curve.(p) ;;
     let lambda := (((y2 - y1) mod curve.(p)) * v) mod curve.(p) in
     let x3 := (lambda * lambda - x1 - x2) mod curve.(p) in
     Ok (affine x3 ((lambda * (x1 - x3) - y1) mod curve.(p)))).
Proof.
  intros Hp Hx1 Hy1 Hx2 Hy2 Hne.
  unfold run, pointAdd. cbn [isInfinity x y].
  replace ((x1 =? 0) || (y1 =? 0) || (x2 =? 0) || (y2 =? 0)) with false
    by (symmetry; rewrite !orb_false_iff, !Z.eqb_neq; tauto).
  replace (x1 =? x2) with false by (symmetry; apply Z.eqb_neq; assumption).
  cbn [andb].
  rewrite bindM_lift, mod_pos by assumption. cbv beta iota.
  rewrite bindM_lift, mod_pos by assumption. cbv beta iota.
  rewrite bindM_lift.
  destruct (modInverse ((x2 - x1) mod p curve) (p curve)) as [v |];
    [| reflexivity].
  rewrite bindM_lift, mod_pos by assumption. cbv beta iota.
  rewrite bindM_emit. unfold pointAdd_finish.
  rewrite bindM_lift, mod_pos by assumption. cbv beta iota.
  rewrite bindM_lift, mod_pos by assumption. cbv beta iota.
  rewrite bindM_emit. reflexivity.
Qed.

Lemma opp_difference_mod (u v m : Z) :
  0 < m -> (u - v) mod m = (- ((v - u) mod m)) mod m.
Proof.
  intros Hm.
  pose proof (Z.div_mod (v - u) m ltac:(lia)) as Hd.
  replace (- ((v - u) mod m)) with (u - v + ((v - u) / m) * m) by lia.
  rewrite Z.mod_add by lia. reflexivity.
Qed.

Lemma gcd_opp_mod (d m : Z) : 0 < m -> Z.gcd ((- d) mod m) m = Z.gcd d m.
Proof.
  intros Hm.
  rewrite Z.gcd_mod by lia.
  rewrite Z.gcd_opp_r. apply Z.gcd_comm.
Qed.

Lemma eq_mod_of_divide (u v m : Z) : 0 < m -> (m | u - v) -> u mod m = v mod m.
Proof.
  intros Hm [k Hk]. replace u with (v + k * m) by lia.
  apply Z.mod_add. lia.
Qed.

(** The slope of the chord multiplied by the difference of the abscissas is
    the difference of the ordinates, modulo [m]. *)
Lemma slope_times_run (m dy dx v : Z) :
  1 < m -> ((dx mod m) * v) mod m = 1 ->
  (m | (((dy mod m) * v) mod m) * dx - dy).
Proof.
  intros Hm Hinv.
  apply Z.mod_divide; [lia |].
  rewrite Zminus_mod, Z.mul_mod_idemp_l by lia.
  rewrite <- Z.mul_assoc, (Z.mul_comm v dx).
  rewrite <- Z.mul_mod_idemp_r by lia.
  rewrite <- (Z.mul_mod_idemp_l dx v) by lia.
  rewrite Hinv, Z.mul_1_r, Z.mod_mod by lia.
  rewrite <- Zminus_mod, Z.sub_diag. apply Z.mod_0_l. lia.
Qed.

Lemma chord_commutes (m x1 y1 x2 y2 : Z) :
  1 < m ->
  (v <- modInverse ((x2 - x1) mod m) m ;;
   let lambda := (((y2 - y1) mod m) * v) mod m in
   let x3 := (lambda * lambda - x1 - x2) mod m in
   Ok (affine x3 ((lambda * (x1 - x3) - y1) mod m)))
  = (v <- modInverse ((x1 - x2) mod m) m ;;
     let lambda := (((y1 - y2) mod m) * v) mod m in
     let x3 := (lambda * lambda - x2 - x1) mod m in
     Ok (affine x3 ((lambda * (x2 - x3) - y2) mod m))).
Proof.
  intros Hm.
  set (dx := (x2 - x1) mod m).
  assert (Hdx : 0 <= dx < m) by (apply Z.mod_pos_bound; lia).
  assert (Hdx' : (x1 - x2) mod m = (- dx) mod m)
    by (apply opp_difference_mod; lia).
  rewrite Hdx'.
  assert (Hopp : 0 <= (- dx) mod m) by (apply Z.mod_pos_bound; lia).
  destruct (modInverse_nonneg dx m ltac:(lia) Hm) as [Hok Hfail].
  destruct (modInverse_nonneg ((- dx) mod m) m Hopp Hm) as [Hok' Hfail'].
  rewrite gcd_opp_mod in Hok', Hfail' by lia.
  destruct (Z.eq_dec (Z.gcd dx m) 1) as [Hg | Hg].
  2:{ rewrite (Hfail Hg), (Hfail' Hg). reflexivity. }
  destruct (Hok Hg) as (v & Hv & Hvr & Hinv & _).
  destruct (Hok' Hg) as (v' & Hv' & Hvr' & Hinv' & Huniq').
  rewrite Hv, Hv'. cbn [bind]. cbv zeta.
  assert (Ev : (- v) mod m = v').
  { apply Huniq'; [apply Z.mod_pos_bound; lia |].
    rewrite Z.mul_mod_idemp_l, Z.mul_mod_idemp_r by lia.
    replace (- dx * - v) with (dx * v) by ring. exact Hinv. }
  assert (El : (((y1 - y2) mod m) * v') mod m = (((y2 - y1) mod m) * v) mod m).
  { rewrite <- Ev.
    rewrite Z.mul_mod_idemp_l, Z.mul_mod_idemp_r by lia.
    rewrite Z.mul_mod_idemp_l by lia. f_equal. ring. }
  rewrite El.
  set (lambda := (((y2 - y1) mod m) * v) mod m).
  replace (lambda * lambda - x2 - x1) with (lambda * lambda - x1 - x2) by ring.
  set (x3 := (lambda * lambda - x1 - x2) mod m).
  f_equal. unfold affine. f_equal. f_equal.
  apply eq_mod_of_divide; [lia |].
  assert (Hs : (m | lambda * (x2 - x1) - (y2 - y1))).
  { apply slope_times_run; [exact Hm |]. exact Hinv. }
  destruct Hs as [k Hk]. exists (- k). lia.
Qed.

Ltac guard_case :=
  unfold run, pointAdd; cbn [isInfinity x y];
  rewrite ?Z.eqb_refl, ?orb_true_r; cbn [orb];
  rewrite ?orb_true_r; reflexivity.

(** X7: [pointAdd] is commutative: for a modulus above [1] and two arguments
    that are not both marked as the point at infinity, exchanging the
    arguments gives the same point, or the same exception. *)
Theorem pointAdd_commutes (P Q : Point) (curve : CurveParams) :
  1 < curve.(p) ->
  isInfinity P = false \/ isInfinity Q = false ->
  run (pointAdd P Q curve None) = run (pointAdd Q P curve None).
Proof.
  intros Hp Hinf.
  destruct P as [ox1 oy1 i1], Q as [ox2 oy2 i2].
  cbn [isInfinity] in Hinf.
  destruct i1, i2.
  - destruct Hinf; discriminate.
  - reflexivity.
  - reflexivity.
  - destruct ox1 as [x1 |], oy1 as [y1 |], ox2 as [x2 |], oy2 as [y2 |];
      try reflexivity.
    destruct (Z.eq_dec x1 0) as [-> | Hx1]; [guard_case |].
    destruct (Z.eq_dec y1 0) as [-> | Hy1]; [guard_case |].
    destruct (Z.eq_dec x2 0) as [-> | Hx2]; [guard_case |].
    destruct (Z.eq_dec y2 0) as [-> | Hy2]; [guard_case |].
    destruct (Z.eq_dec x1 x2) as [-> | Hne].
    + destruct (Z.eq_dec y1 y2) as [-> | Hney]; [reflexivity |].
      unfold run, pointAdd. cbn [isInfinity x y].
      replace ((x2 =? 0) || (y1 =? 0) || (x2 =? 0) || (y2 =? 0)) with false
        by (symmetry; rewrite !orb_false_iff, !Z.eqb_neq; tauto).
      replace ((x2 =? 0) || (y2 =? 0) || (x2 =? 0) || (y1 =? 0)) with false
        by (symmetry; rewrite !orb_false_iff, !Z.eqb_neq; tauto).
      rewrite Z.eqb_refl.
      replace (y1 =? y2) with false by (symmetry; apply Z.eqb_neq; assumption).
      replace (y2 =? y1) with false
        by (symmetry; apply Z.eqb_neq; intros E; apply Hney; symmetry; exact E).
      reflexivity.
    + rewrite !pointAdd_chord_value by (try lia; auto).
      apply chord_commutes. exact Hp.
Qed.

Lemma pointAdd_commutes_witness :
  run (pointAdd (affine 2 4) (affine 5 9) TOY_CURVE None)
  = run (pointAdd (affine 5 9) (affine 2 4) TOY_CURVE None).
Proof.
  apply (pointAdd_commutes (affine 2 4) (affine 5 9) TOY_CURVE).
  - cbn. lia.
  - left. reflexivity.
Defined.

(** X8: Adding the opposite: for an odd positive modulus and any integer
    coordinates, [pointAdd] of [(x, y)] and [(x, mod(-y, p))], the negation
    [handleDecrypt] builds, is the point at infinity, in both orders. *)
Theorem pointAdd_opposite (curve : CurveParams) (px py : Z) :
  0 < curve.(p) -> curve.(p) mod 2 = 1 ->
  exists ny,
    negate_y (Some py) curve.(p) = Ok ny
    /\ run (pointAdd (affine px py) (mkPoint (Some px) (Some ny) false)
                     curve None) = Ok infinity
    /\ run (pointAdd (mkPoint (Some px) (Some ny) false) (affine px py)
                     curve None) = Ok infinity.
Proof.
  intros Hp Hodd. exists ((- py) mod p curve).
  split; [cbn [negate_y]; apply mod_pos; assumption |].
  set (ny := (- py) mod p curve).
  assert (Hny : 0 <= ny < p curve) by (apply Z.mod_pos_bound; assumption).
  assert (Hdiff : py <> 0 -> py <> ny).
  { intros Hnz E.
    pose proof (Z.div_mod (- py) (p curve) ltac:(lia)) as Hd.
    fold ny in Hd. rewrite <- E in Hd, Hny.
    pose proof (Z.div_mod (p curve) 2 ltac:(lia)) as H2. rewrite Hodd in H2.
    assert ((- py) / p curve = -1) by nia.
    lia. }
  unfold affine.
  destruct (Z.eq_dec px 0) as [-> | Hx]; [split; guard_case |].
  destruct (Z.eq_dec py 0) as [-> | Hy]; [split; guard_case |].
  destruct (Z.eq_dec ny 0) as [E0 | Hn];
    [rewrite E0; split; guard_case |].
  specialize (Hdiff Hy).
  split; unfold run, pointAdd; cbn [isInfinity x y].
  - replace ((px =? 0) || (py =? 0) || (px =? 0) || (ny =? 0)) with false
      by (symmetry; rewrite !orb_false_iff, !Z.eqb_neq; tauto).
    rewrite Z.eqb_refl.
    replace (py =? ny) with false by (symmetry; apply Z.eqb_neq; assumption).
    reflexivity.
  - replace ((px =? 0) || (ny =? 0) || (px =? 0) || (py =? 0)) with false
      by (symmetry; rewrite !orb_false_iff, !Z.eqb_neq; tauto).
    rewrite Z.eqb_refl.
    replace (ny =? py) with false
      by (symmetry; apply Z.eqb_neq; intros E; apply Hdiff; symmetry; exact E).
    reflexivity.
Qed.

Lemma pointAdd_opposite_witness :
  exists ny,
    negate_y (Some 659) 1021 = Ok ny
    /\ run (pointAdd (affine 981 659) (mkPoint (Some 981) (Some ny) false)
                     DEMO_CURVE None) = Ok infinity
    /\ run (pointAdd (mkPoint (Some 981) (Some ny) false) (affine 981 659)
                     DEMO_CURVE None) = Ok infinity.
Proof.
  apply (pointAdd_opposite DEMO_CURVE 981 659); [cbn; lia | reflexivity].
Defined.

Lemma prime_11 : Z.prime 11.
Proof.
  split; [lia |].
  intros k Hk [q Hq].
  assert (Hc : k = 2 \/ k = 3 \/ k = 4 \/ k = 5 \/ k = 6 \/ k = 7 \/ k = 8
               \/ k = 9 \/ k = 10) by lia.
  repeat (destruct Hc as [-> | Hc]; [lia |]). subst k. lia.
Qed.

(** X9: The chord and tangent law, for an odd prime modulus and two points whose
    coordinates lie in [(0, p)], unless the chord is vertical: [pointAdd]
    returns the point the law gives, with the slope of the tangent for equal
    points and of the chord otherwise. *)
Theorem pointAdd_follows_the_law (curve : CurveParams) (x1 y1 x2 y2 : Z) :
  Z.prime curve.(p) -> 2 < curve.(p) ->
  0 < x1 < curve.(p) -> 0 < y1 < curve.(p) ->
  0 < x2 < curve.(p) -> 0 < y2 < curve.(p) ->
  ~ (x1 = x2 /\ y1 <> y2) ->
  exists R,
    run (pointAdd (affine x1 y1) (affine x2 y2) curve None) = Ok R
    /\ chord_tangent_law curve x1 y1 x2 y2 R.
Proof. exact (pointAdd_chord_tangent curve x1 y1 x2 y2). Qed.

Lemma pointAdd_follows_the_law_witness :
  exists R,
    run (pointAdd (affine 2 4) (affine 2 4) TOY_CURVE None) = Ok R
    /\ chord_tangent_law TOY_CURVE 2 4 2 4 R.
Proof.
  apply (pointAdd_follows_the_law TOY_CURVE 2 4 2 4);
    try (cbn; lia).
  exact prime_11.
Defined.

(** ** Scalar multiplication *)

Lemma pointAdd_infinite_left (P Q : Point) (curve : CurveParams) :
  isInfinity P = true -> run (pointAdd P Q curve None) = Ok Q.
Proof. intros H. unfold run, pointAdd. rewrite H. reflexivity. Qed.

Lemma pointMultiply_loop_infinite (curve : CurveParams) (chars : list ascii) :
  forall (pos : nat) (R N : Point),
    isInfinity R = true -> isInfinity N = true ->
    exists R', run (pointMultiply_loop chars pos R N curve None) = Ok R'
               /\ isInfinity R' = true.
Proof.
  induction chars as [| c rest IH]; intros pos R N HR HN.
  - exists R. split; [reflexivity | exact HR].
  - rewrite pointMultiply_loop_cons. unfold multiply_turn.
    rewrite !pointAdd_infinite_left by assumption.
    destruct (Ascii.eqb c "1"%char); cbn [bind fst snd]; apply IH; assumption.
Qed.

(** X11: Multiplying the point at infinity: for every scalar, negative ones
    included, and every curve, even of modulus [0], [pointMultiply] returns
    a point at infinity and does not throw. *)
Theorem pointMultiply_of_infinity (k : Z) (P : Point) (curve : CurveParams) :
  isInfinity P = true ->
  exists R, run (pointMultiply k P curve None) = Ok R /\ isInfinity R = true.
Proof.
  intros HP. unfold pointMultiply, run. rewrite bindM_emit.
  apply (pointMultiply_loop_infinite curve _ 0%nat infinity P);
    [reflexivity | exact HP].
Qed.

Lemma pointMultiply_of_infinity_witness :
  exists R, run (pointMultiply (-6) infinity (mkCurve 1 1 0 infinity 0) None)
            = Ok R /\ isInfinity R = true.
Proof.
  apply (pointMultiply_of_infinity (-6) infinity). reflexivity.
Defined.

Lemma pointMultiply_loop_turns (curve : CurveParams) (chars : list ascii) :
  forall (pos : nat) (R N : Point),
    run (pointMultiply_loop chars pos R N curve None)
    = (RN <- multiply_turns chars R N curve ;; Ok (fst RN)).
Proof.
  induction chars as [| c rest IH]; intros pos R N; [reflexivity |].
  rewrite pointMultiply_loop_cons. cbn [multiply_turns].
  destruct (multiply_turn c R N curve) as [[R' N'] |]; [| reflexivity].
  cbn [bind fst snd]. apply IH.
Qed.

Lemma multiply_turns_app (curve : CurveParams) (l1 l2 : list ascii) :
  forall (R N : Point),
    multiply_turns (l1 ++ l2) R N curve
    = (RN <- multiply_turns l1 R N curve ;;
       multiply_turns l2 (fst RN) (snd RN) curve).
Proof.
  induction l1 as [| c l1 IH]; intros R N; [reflexivity |].
  cbn [app multiply_turns].
  destruct (multiply_turn c R N curve) as [[R' N'] |]; [| reflexivity].
  cbn [bind fst snd]. apply IH.
Qed.

(** X12: A negative scalar: the sign of [k.toString(2)] is read as one more
    digit [0], so whenever [pointMultiply(-k, P)] returns, it returns what
    [pointMultiply(k, P)] returns: the sign is ignored, the point is not
    negated. *)
Theorem pointMultiply_ignores_sign (k : Z) (P R : Point)
    (curve : CurveParams) :
  0 < k ->
  run (pointMultiply (- k) P curve None) = Ok R ->
  run (pointMultiply k P curve None) = Ok R.
Proof.
  intros Hk. destruct k as [| q | q]; try lia.
  unfold pointMultiply, run. rewrite !bindM_emit.
  change (fst (pointMultiply_loop ?c ?n ?r ?m curve None ?s))
    with (run (pointMultiply_loop c n r m curve None)).
  cbn [Z.opp toString2].
  change ("-" ++ binary_digits q)%string
    with (String "-"%char (binary_digits q)).
  cbn [list_ascii_of_string rev].
  rewrite !pointMultiply_loop_turns, multiply_turns_app.
  destruct (multiply_turns (rev (list_ascii_of_string (binary_digits q)))
                           infinity P curve) as [[R1 N1] |];
    [| discriminate].
  cbn [bind fst snd multiply_turns]. unfold multiply_turn.
  change (Ascii.eqb "-" "1") with false. cbv iota. cbn [bind].
  destruct (run (pointAdd N1 N1 curve None)); [| discriminate].
  cbn [bind fst snd]. intros H. exact H.
Qed.

Lemma pointMultiply_ignores_sign_witness :
  run (pointMultiply (-5) (affine 2 4) TOY_CURVE None) = Ok (affine 3 5)
  /\ run (pointMultiply 5 (affine 2 4) TOY_CURVE None) = Ok (affine 3 5).
Proof.
  assert (E : run (pointMultiply (-5) (affine 2 4) TOY_CURVE None)
              = Ok (affine 3 5)) by (vm_compute; reflexivity).
  split; [exact E |].
  apply (pointMultiply_ignores_sign 5 (affine 2 4) (affine 3 5) TOY_CURVE);
    [lia | exact E].
Defined.

(** ** The trace *)

Lemma feed_collect (lines : list string) :
  forall seen, feed collect lines seen = (seen ++ lines)%list.
Proof.
  induction lines as [| l lines IH]; intros seen; cbn.
  - rewrite app_nil_r. reflexivity.
  - unfold feed in IH. rewrite IH, <- app_assoc. reflexivity.
Qed.

Lemma feed_app {Obs : Type} (log : callback Obs) (l1 l2 : list string)
    (st : Obs) :
  feed log (l1 ++ l2) st = feed log l2 (feed log l1 st).
Proof. unfold feed. apply fold_left_app. Qed.

Lemma pointAdd_finish_feed {Obs : Type} (x1 y1 x2 lambda cp : Z)
    (log : callback Obs) (st : Obs) :
  pointAdd_finish x1 y1 x2 lambda cp log st
  = (run (pointAdd_finish x1 y1 x2 lambda cp None),
     feed log (lines_of (pointAdd_finish x1 y1 x2 lambda cp collect)) st).
Proof.
  unfold pointAdd_finish, run, lines_of. rewrite !bindM_lift.
  destruct (mod_ (lambda * lambda - x1 - x2) cp) as [x3 |]; [| reflexivity].
  rewrite !bindM_lift.
  destruct (mod_ (lambda * (x1 - x3) - y1) cp) as [y3 |]; [| reflexivity].
  rewrite !bindM_emit. reflexivity.
Qed.

Lemma pointAdd_feed {Obs : Type} (P Q : Point) (curve : CurveParams)
    (log : callback Obs) (st : Obs) :
  pointAdd P Q curve log st
  = (run (pointAdd P Q curve None),
     feed log (lines_of (pointAdd P Q curve collect)) st).
Proof.
  unfold pointAdd, run, lines_of.
  destruct (isInfinity P); [reflexivity |].
  destruct (isInfinity Q); [reflexivity |].
  destruct (x P) as [x1 |]; [| reflexivity].
  destruct (y P) as [y1 |]; [| reflexivity].
  destruct (x Q) as [x2 |]; [| reflexivity].
  destruct (y Q) as [y2 |]; [| reflexivity].
  destruct ((x1 =? 0) || (y1 =? 0) || (x2 =? 0) || (y2 =? 0));
    [reflexivity |].
  destruct ((x1 =? x2) && negb (y1 =? y2)).
  { rewrite !bindM_emit. reflexivity. }
  destruct ((x1 =? x2) && (y1 =? y2)).
  - destruct (y1 =? 0); [reflexivity |].
    rewrite !bindM_lift.
    destruct (mod_ (3 * x1 * x1 + a curve) (p curve)) as [num |];
      [| reflexivity].
    rewrite !bindM_lift.
    destruct (modInverse (2 * y1) (p curve)) as [den |]; [| reflexivity].
    rewrite !bindM_lift.
    destruct (mod_ (num * den) (p curve)) as [lambda |]; [| reflexivity].
    rewrite !bindM_emit.
    rewrite (pointAdd_finish_feed x1 y1 x2 lambda (p curve) log).
    rewrite (pointAdd_finish_feed x1 y1 x2 lambda (p curve) collect).
    cbn [fst snd]. rewrite feed_collect. reflexivity.
  - rewrite !bindM_lift.
    destruct (mod_ (y2 - y1) (p curve)) as [num |]; [| reflexivity].
    rewrite !bindM_lift.
    destruct (mod_ (x2 - x1) (p curve)) as [dx |]; [| reflexivity].
    rewrite !bindM_lift.
    destruct (modInverse dx (p curve)) as [den |]; [| reflexivity].
    rewrite !bindM_lift.
    destruct (mod_ (num * den) (p curve)) as [lambda |]; [| reflexivity].
    rewrite !bindM_emit.
    rewrite (pointAdd_finish_feed x1 y1 x2 lambda (p curve) log).
    rewrite (pointAdd_finish_feed x1 y1 x2 lambda (p curve) collect).
    cbn [fst snd]. rewrite feed_collect. reflexivity.
Qed.

Lemma pointMultiply_loop_feed (curve : CurveParams) (chars : list ascii) :
  forall (Obs : Type) (log : callback Obs) (pos : nat) (R N : Point)
         (st : Obs),
    pointMultiply_loop chars pos R N curve log st
    = (run (pointMultiply_loop chars pos R N curve None),
       feed log (lines_of (pointMultiply_loop chars pos R N curve collect)) st).
Proof.
  induction chars as [| c rest IH]; intros Obs log pos R N st;
    [reflexivity |].
  rewrite pointMultiply_loop_cons. unfold multiply_turn, lines_of.
  cbn [pointMultiply_loop].
  destruct (Ascii.eqb c "1"%char).
  - rewrite !bindM_assoc, !bindM_emit, !bindM_pointAdd.
    destruct (run (pointAdd R N curve None)) as [R' |]; [| reflexivity].
    rewrite !bindM_emit, !bindM_pointAdd. cbn [bind].
    destruct (run (pointAdd N N curve None)) as [N' |]; [| reflexivity].
    cbn [bind fst snd].
    rewrite (IH Obs log), (IH (list string) collect).
    cbn [fst snd]. rewrite feed_collect. reflexivity.
  - rewrite !bindM_ret, !bindM_emit, !bindM_pointAdd. cbn [bind].
    destruct (run (pointAdd N N curve None)) as [N' |]; [| reflexivity].
    cbn [bind fst snd].
    rewrite (IH Obs log), (IH (list string) collect).
    cbn [fst snd]. rewrite feed_collect. reflexivity.
Qed.

(** X10: The trace is a list of lines fixed by the arguments: whatever callback
    is supplied, [pointAdd] and [pointMultiply] call it on the same lines in
    the same order, also when they end in an exception, and do nothing else
    to the observer; the lines are those a collecting callback gathers. *)
Theorem callback_receives_the_trace (Obs : Type) (log : callback Obs)
    (st : Obs) (P Q : Point) (k : Z) (curve : CurveParams) :
  pointAdd P Q curve log st
  = (run (pointAdd P Q curve None),
     feed log (lines_of (pointAdd P Q curve collect)) st)
  /\ pointMultiply k P curve log st
     = (run (pointMultiply k P curve None),
        feed log (lines_of (pointMultiply k P curve collect)) st).
Proof.
  split; [apply pointAdd_feed |].
  unfold pointMultiply, run, lines_of. rewrite !bindM_emit.
  rewrite (pointMultiply_loop_feed curve _ Obs log).
  rewrite (pointMultiply_loop_feed curve _ (list string) collect).
  cbn [fst snd]. rewrite feed_collect. reflexivity.
Qed.

(** ** [TOY_CURVE] as a group *)

Lemma toy_small_cases (Q : Z -> Prop) :
  (forall k : nat, (k < 13)%nat -> Q (Z.of_nat k)) -> forall i, Q (i mod 13).
Proof.
  intros H i. apply (forall_below 13 Q H).
  apply Z.mod_pos_bound. lia.
Qed.

Lemma toy_is_point (i : Z) :
  toy_point (toy i) /\ (toy i = infinity <-> i mod 13 = 0).
Proof.
  rewrite <- toy_mod.
  pattern (i mod 13). apply toy_small_cases. intros k Hk.
  destruct k as [| k].
  { split; [left; reflexivity | split; reflexivity]. }
  do 12 (destruct k as [| k];
         [split; [right; vm_compute; reflexivity
                 | split; [discriminate | intros E; exfalso; lia]] |]).
  exfalso; lia.
Qed.

Lemma toy_point_index (P : Point) : toy_point P -> exists i, P = toy i.
Proof.
  intros [-> | H].
  - exists 0. reflexivity.
  - destruct (toy_points_complete P H) as (i & _ & ->). exists i. reflexivity.
Qed.

(** X13: [pointAdd] makes the thirteen points of [TOY_CURVE] a group generated by
    [G]: the sum of two points is a point, addition is associative, and
    [pointMultiply(k, G)] is the point at infinity exactly when [13], the
    stated order [n], divides [k]. *)
Theorem toy_curve_group :
  (forall A B, toy_point A -> toy_point B ->
     exists C, run (pointAdd A B TOY_CURVE None) = Ok C /\ toy_point C)
  /\ (forall A B C, toy_point A -> toy_point B -> toy_point C ->
        (AB <- run (pointAdd A B TOY_CURVE None) ;;
         run (pointAdd AB C TOY_CURVE None))
        = (BC <- run (pointAdd B C TOY_CURVE None) ;;
           run (pointAdd A BC TOY_CURVE None)))
  /\ (forall k, 0 <= k ->
        exists R, run (pointMultiply k (G TOY_CURVE) TOY_CURVE None) = Ok R
                  /\ toy_point R
                  /\ (R = infinity <-> k mod (n TOY_CURVE) = 0)).
Proof.
  split; [| split].
  - intros A B HA HB.
    destruct (toy_point_index A HA) as [i ->].
    destruct (toy_point_index B HB) as [j ->].
    exists (toy (i + j)). split; [apply toy_add | apply toy_is_point].
  - intros A B C HA HB HC.
    destruct (toy_point_index A HA) as [i ->].
    destruct (toy_point_index B HB) as [j ->].
    destruct (toy_point_index C HC) as [l ->].
    rewrite !toy_add. cbn [bind]. rewrite !toy_add.
    f_equal. f_equal. ring.
  - intros k Hk. change (G TOY_CURVE) with (toy 1).
    rewrite toy_multiply by assumption. rewrite Z.mul_1_r.
    exists (toy k). split; [reflexivity |]. apply toy_is_point.
Qed.

Lemma toy_curve_group_witness :
  (exists C, run (pointAdd (affine 2 4) (affine 10 9) TOY_CURVE None) = Ok C
             /\ toy_point C)
  /\ (AB <- run (pointAdd (affine 2 4) (affine 5 9) TOY_CURVE None) ;;
      run (pointAdd AB (affine 2 7) TOY_CURVE None))
     = (BC <- run (pointAdd (affine 5 9) (affine 2 7) TOY_CURVE None) ;;
        run (pointAdd (affine 2 4) BC TOY_CURVE None))
  /\ (exists R, run (pointMultiply 26 (G TOY_CURVE) TOY_CURVE None) = Ok R
                /\ toy_point R /\ (R = infinity <-> 26 mod 13 = 0)).
Proof.
  destruct toy_curve_group as (Hclosed & Hassoc & Horder).
  assert (H1 : toy_point (affine 2 4)) by (right; reflexivity).
  assert (H2 : toy_point (affine 10 9)) by (right; reflexivity).
  assert (H3 : toy_point (affine 5 9)) by (right; reflexivity).
  assert (H4 : toy_point (affine 2 7)) by (right; reflexivity).
  split; [exact (Hclosed _ _ H1 H2) |].
  split; [exact (Hassoc _ _ _ H1 H3 H4) |].
  apply (Horder 26). lia.
Defined.

Lemma toy_multiply_additive_witness :
  exists A B,
    run (pointMultiply 5 (affine 8 3) TOY_CURVE None) = Ok A
    /\ run (pointMultiply 9 (affine 8 3) TOY_CURVE None) = Ok B
    /\ run (pointMultiply (5 + 9) (affine 8 3) TOY_CURVE None)
       = run (pointAdd A B TOY_CURVE None)
    /\ run (pointMultiply 0 (affine 8 3) TOY_CURVE None) = Ok infinity.
Proof.
  apply (toy_multiply_additive 5 9 (affine 8 3)); [lia | lia | reflexivity].
Defined.

Lemma toy_elgamal_roundtrip_witness :
  exists st,
    encrypt_then_decrypt TOY_CURVE (session 15 7 (affine 10 2) koblitz)
    = (Ok tt, st)
    /\ decryptedPoint st = Some (affine 10 2).
Proof.
  apply (toy_elgamal_roundtrip 15 7 (affine 10 2) koblitz);
    [lia | lia | vm_compute; discriminate | reflexivity].
Defined.

(** ** Embedding *)

(** For a positive modulus [isValidX] does not throw; it is valid exactly
    when it has a [y], and that [y] is reduced and satisfies the curve
    equation with [x]. *)
Lemma isValidX_positive (x0 : Z) (curve : CurveParams) :
  0 < curve.(p) ->
  isValidX x0 curve = Ok (false, None)
  \/ exists y0,
       isValidX x0 curve = Ok (true, Some y0)
       /\ 0 <= y0 < curve.(p)
       /\ (y0 * y0) mod curve.(p)
          = (x0 ^ 3 + curve.(a) * x0 + curve.(b)) mod curve.(p).
Proof.
  intros Hp. unfold isValidX. rewrite mod_pos by assumption. cbn [bind].
  destruct (modSqrt_positive
              ((x0 ^ 3 + a curve * x0 + b curve) mod p curve) (p curve) Hp)
    as (o & Ho & Hroot).
  rewrite Ho. cbn [bind]. destruct o as [y0 |]; [right | left; reflexivity].
  exists y0. split; [reflexivity |].
  destruct (Hroot y0 eq_refl) as [Hr He].
  split; [exact Hr |]. rewrite He. apply Z.mod_mod. lia.
Qed.

Lemma embedMessageKoblitz_loop_behaviour (curve : CurveParams)
    (K message : Z) (count : nat) :
  0 < curve.(p) ->
  forall j,
    (exists j' y0,
        j <= j' < j + Z.of_nat count
        /\ embedMessageKoblitz_loop count j message curve K
           = Ok (affine (message * K + j') y0)
        /\ isValidX (message * K + j') curve = Ok (true, Some y0)
        /\ forall i, j <= i < j' ->
                     isValidX (message * K + i) curve = Ok (false, None))
    \/ (embedMessageKoblitz_loop count j message curve K
        = Throw (Error EMBED_KOBLITZ_FAILED)
        /\ forall i, j <= i < j + Z.of_nat count ->
                     isValidX (message * K + i) curve = Ok (false, None)).
Proof.
  intros Hp.
  induction count as [| count IH]; intros j.
  - right. split; [reflexivity | intros i Hi; lia].
  - cbn [embedMessageKoblitz_loop].
    destruct (isValidX_positive (message * K + j) curve Hp)
      as [Hno | (y0 & Hyes & _)].
    + rewrite Hno. cbn [bind].
      destruct (IH (j + 1)) as [(j' & y0 & Hj & Hr & Hv & Hmin) | [Hr Hall]].
      * left. exists j', y0. split; [lia |]. split; [exact Hr |].
        split; [exact Hv |]. intros i Hi.
        destruct (Z.eq_dec i j) as [-> | Hne]; [exact Hno | apply Hmin; lia].
      * right. split; [exact Hr |]. intros i Hi.
        destruct (Z.eq_dec i j) as [-> | Hne]; [exact Hno | apply Hall; lia].
    + rewrite Hyes. cbn [bind]. left. exists j, y0.
      split; [lia |]. split; [reflexivity |]. split; [exact Hyes |].
      intros i Hi. lia.
Qed.

(** X16: [embedMessageKoblitz] for a positive modulus. When it returns, the
    point is [(x, y)] with [x = message * K + j] for the least [j] in
    [[0, K)] whose [x] [isValidX] accepts, and [y] is the root [isValidX]
    gives for it; [y] is reduced and the point satisfies the curve equation
    modulo [p], while [x] itself is not reduced. It returns as soon as some
    [j] in [[0, K)] is accepted. It throws, and then its own error, exactly
    when [isValidX] rejects every [j] in [[0, K)], in particular when
    [K <= 0]. *)
Theorem embedMessageKoblitz_behaviour (message K : Z) (curve : CurveParams) :
  0 < curve.(p) ->
  (forall P, embedMessageKoblitz message curve K = Ok P ->
     exists j y0,
       0 <= j < K
       /\ P = affine (message * K + j) y0
       /\ isValidX (message * K + j) curve = Ok (true, Some y0)
       /\ 0 <= y0 < curve.(p)
       /\ (y0 * y0) mod curve.(p)
          = ((message * K + j) ^ 3 + curve.(a) * (message * K + j)
             + curve.(b)) mod curve.(p)
       /\ forall i, 0 <= i < j ->
                    isValidX (message * K + i) curve = Ok (false, None))
  /\ (forall e, embedMessageKoblitz message curve K = Throw e ->
        e = Error EMBED_KOBLITZ_FAILED)
  /\ (embedMessageKoblitz message curve K = Throw (Error EMBED_KOBLITZ_FAILED)
      <-> forall i, 0 <= i < K ->
                    isValidX (message * K + i) curve = Ok (false, None))
  /\ ((exists j y0, 0 <= j < K
                    /\ isValidX (message * K + j) curve = Ok (true, Some y0))
      <-> exists P, embedMessageKoblitz message curve K = Ok P)
  /\ (K <= 0 ->
      embedMessageKoblitz message curve K = Throw (Error EMBED_KOBLITZ_FAILED)).
Proof.
  intros Hp. unfold embedMessageKoblitz.
  destruct (embedMessageKoblitz_loop_behaviour curve K message (Z.to_nat K)
              Hp 0) as [(j & y0 & Hj & Hr & Hv & Hmin) | [Hr Hall]].
  - assert (HK : 0 < K) by lia. rewrite Z2Nat.id in Hj by lia.
    rewrite Hr. split; [| split; [| split; [| split]]].
    + intros P HP. injection HP as <-. exists j, y0.
      split; [lia |]. split; [reflexivity |]. split; [exact Hv |].
      destruct (isValidX_positive (message * K + j) curve Hp)
        as [Hno | (y1 & Hyes & Hrange & Heq)]; [congruence |].
      assert (y1 = y0) by congruence. subst y1.
      split; [exact Hrange |]. split; [exact Heq | exact Hmin].
    + intros e He. discriminate.
    + split; [discriminate |]. intros Hnone.
      rewrite (Hnone j) in Hv by lia. discriminate.
    + split; [intros _; eexists; reflexivity |].
      intros _. exists j, y0. split; [lia | exact Hv].
    + intros HK'. lia.
  - rewrite Hr. split; [| split; [| split; [| split]]].
    + intros P HP. discriminate.
    + intros e He. injection He as <-. reflexivity.
    + split; [| reflexivity].
      intros _ i Hi. apply Hall. rewrite Z2Nat.id by lia. lia.
    + split.
      * intros (j & y0 & Hj & Hv).
        rewrite Hall in Hv by (rewrite Z2Nat.id by lia; lia). discriminate.
      * intros [P HP]. discriminate.
    + intros _. reflexivity.
Qed.

Lemma embedMessageKoblitz_behaviour_witness :
  (exists j y0,
      0 <= j < 20
      /\ affine 243 429 = affine (12 * 20 + j) y0
      /\ isValidX (12 * 20 + j) DEMO_CURVE = Ok (true, Some y0)
      /\ 0 <= y0 < 1021
      /\ (y0 * y0) mod 1021
         = ((12 * 20 + j) ^ 3 + 2 * (12 * 20 + j) + 2) mod 1021
      /\ forall i, 0 <= i < j ->
                   isValidX (12 * 20 + i) DEMO_CURVE = Ok (false, None))
  /\ embedMessageKoblitz 0 TOY_CURVE 1 = Throw (Error EMBED_KOBLITZ_FAILED)
  /\ (exists P, embedMessageKoblitz 2 TOY_CURVE 1 = Ok P)
  /\ embedMessageKoblitz 12 DEMO_CURVE (-4) = Throw (Error EMBED_KOBLITZ_FAILED).
Proof.
  destruct (embedMessageKoblitz_behaviour 12 20 DEMO_CURVE)
    as (H1 & _ & _ & _ & _); [cbn; lia |].
  destruct (embedMessageKoblitz_behaviour 0 1 TOY_CURVE)
    as (_ & _ & H3 & _ & _); [cbn; lia |].
  destruct (embedMessageKoblitz_behaviour 2 1 TOY_CURVE)
    as (_ & _ & _ & H4 & _); [cbn; lia |].
  destruct (embedMessageKoblitz_behaviour 12 (-4) DEMO_CURVE)
    as (_ & _ & _ & _ & H5); [cbn; lia |].
  split; [| split; [| split]].
  - apply (H1 (affine 243 429)). vm_compute. reflexivity.
  - apply (proj2 H3). intros i Hi. assert (i = 0) as -> by lia.
    vm_compute. reflexivity.
  - apply (proj1 H4). exists 0, 4. split; [lia |]. vm_compute. reflexivity.
  - apply H5. lia.
Defined.

Lemma embedMessageDirect_loop_behaviour (curve : CurveParams) (message : Z)
    (count : nat) :
  0 < curve.(p) ->
  forall offset,
    (exists o y0,
        offset <= o < offset + Z.of_nat count
        /\ embedMessageDirect_loop count offset message curve
           = Ok (affine (message + o) y0, o)
        /\ isValidX (message + o) curve = Ok (true, Some y0)
        /\ forall i, offset <= i < o ->
                     isValidX (message + i) curve = Ok (false, None))
    \/ (embedMessageDirect_loop count offset message curve
        = Throw (Error EMBED_DIRECT_FAILED)
        /\ forall i, offset <= i < offset + Z.of_nat count ->
                     isValidX (message + i) curve = Ok (false, None)).
Proof.
  intros Hp.
  induction count as [| count IH]; intros offset.
  - right. split; [reflexivity | intros i Hi; lia].
  - cbn [embedMessageDirect_loop].
    destruct (isValidX_positive (message + offset) curve Hp)
      as [Hno | (y0 & Hyes & _)].
    + rewrite Hno. cbn [bind].
      destruct (IH (offset + 1))
        as [(o & y0 & Ho & Hr & Hv & Hmin) | [Hr Hall]].
      * left. exists o, y0. split; [lia |]. split; [exact Hr |].
        split; [exact Hv |]. intros i Hi.
        destruct (Z.eq_dec i offset) as [-> | Hne];
          [exact Hno | apply Hmin; lia].
      * right. split; [exact Hr |]. intros i Hi.
        destruct (Z.eq_dec i offset) as [-> | Hne];
          [exact Hno | apply Hall; lia].
    + rewrite Hyes. cbn [bind]. left. exists offset, y0.
      split; [lia |]. split; [reflexivity |]. split; [exact Hyes |].
      intros i Hi. lia.
Qed.

(** X17: [embedMessageDirect] for a positive modulus. When it returns a point
    and an offset, the offset is the least one in [[0, 100)] whose
    [x = message + offset] [isValidX] accepts, the point is [(x, y)] with
    the [y] that [isValidX] gives, reduced and satisfying the curve equation
    modulo [p], and [x - offset] is the message. It returns as soon as one of
    the hundred candidates is accepted. It throws, and then its own error,
    exactly when [isValidX] rejects all hundred candidates. *)
Theorem embedMessageDirect_behaviour (message : Z) (curve : CurveParams) :
  0 < curve.(p) ->
  (forall P offset, embedMessageDirect message curve = Ok (P, offset) ->
     exists y0,
       0 <= offset < 100
       /\ P = affine (message + offset) y0
       /\ isValidX (message + offset) curve = Ok (true, Some y0)
       /\ 0 <= y0 < curve.(p)
       /\ (y0 * y0) mod curve.(p)
          = ((message + offset) ^ 3 + curve.(a) * (message + offset)
             + curve.(b)) mod curve.(p)
       /\ (forall px, x P = Some px -> px - offset = message)
       /\ forall i, 0 <= i < offset ->
                    isValidX (message + i) curve = Ok (false, None))
  /\ (forall e, embedMessageDirect message curve = Throw e ->
        e = Error EMBED_DIRECT_FAILED)
  /\ (embedMessageDirect message curve = Throw (Error EMBED_DIRECT_FAILED)
      <-> forall i, 0 <= i < 100 ->
                    isValidX (message + i) curve = Ok (false, None))
  /\ ((exists o y0, 0 <= o < 100
                    /\ isValidX (message + o) curve = Ok (true, Some y0))
      <-> exists P offset, embedMessageDirect message curve = Ok (P, offset)).
Proof.
  intros Hp. unfold embedMessageDirect.
  destruct (embedMessageDirect_loop_behaviour curve message 100 Hp 0)
    as [(o & y0 & Ho & Hr & Hv & Hmin) | [Hr Hall]].
  - rewrite Hr. split; [| split; [| split]].
    + intros P offset HP. injection HP as <- <-. exists y0.
      split; [lia |]. split; [reflexivity |]. split; [exact Hv |].
      destruct (isValidX_positive (message + o) curve Hp)
        as [Hno | (y1 & Hyes & Hrange & Heq)]; [congruence |].
      assert (y1 = y0) by congruence. subst y1.
      split; [exact Hrange |]. split; [exact Heq |].
      split; [| exact Hmin].
      intros px Hpx. cbn in Hpx. injection Hpx as <-. lia.
    + intros e He. discriminate.
    + split; [discriminate |]. intros Hnone.
      rewrite (Hnone o) in Hv by lia. discriminate.
    + split; [intros _; do 2 eexists; reflexivity |].
      intros _. exists o, y0. split; [lia | exact Hv].
  - rewrite Hr. split; [| split; [| split]].
    + intros P offset HP. discriminate.
    + intros e He. injection He as <-. reflexivity.
    + split; [| reflexivity]. intros _ i Hi. apply Hall. lia.
    + split.
      * intros (o & y0 & Ho & Hv). rewrite Hall in Hv by lia. discriminate.
      * intros (P & offset & HP). discriminate.
Qed.

Lemma embedMessageDirect_behaviour_witness :
  (exists y0,
      0 <= 3 < 100
      /\ affine 243 429 = affine (240 + 3) y0
      /\ isValidX (240 + 3) DEMO_CURVE = Ok (true, Some y0)
      /\ 0 <= y0 < 1021
      /\ (y0 * y0) mod 1021 = ((240 + 3) ^ 3 + 2 * (240 + 3) + 2) mod 1021
      /\ (forall px, x (affine 243 429) = Some px -> px - 3 = 240)
      /\ forall i, 0 <= i < 3 ->
                   isValidX (240 + i) DEMO_CURVE = Ok (false, None))
  /\ embedMessageDirect 7 (mkCurve 2 2 3 infinity 1)
     = Throw (Error EMBED_DIRECT_FAILED)
  /\ (exists P offset, embedMessageDirect 0 TOY_CURVE = Ok (P, offset)).
Proof.
  destruct (embedMessageDirect_behaviour 240 DEMO_CURVE) as (H1 & _);
    [cbn; lia |].
  destruct (embedMessageDirect_behaviour 7 (mkCurve 2 2 3 infinity 1))
    as (_ & _ & H3 & _); [cbn; lia |].
  destruct (embedMessageDirect_behaviour 0 TOY_CURVE) as (_ & _ & _ & H4);
    [cbn; lia |].
  split; [| split].
  - apply (H1 (affine 243 429) 3). vm_compute. reflexivity.
  - apply (proj2 H3). intros i Hi. pattern i.
    apply (forall_below 100); [| exact Hi].
    intros k Hk.
    do 100 (destruct k as [| k]; [vm_compute; reflexivity |]).
    exfalso. lia.
  - apply (proj1 H4). exists 2, 4. split; [lia |]. vm_compute. reflexivity.
Defined.

(** ** What decryption can return *)

Lemma pointAdd_proper (P Q R : Point) (curve : CurveParams) :
  0 < curve.(p) ->
  proper curve P -> proper curve Q ->
  run (pointAdd P Q curve None) = Ok R ->
  proper curve R.
Proof.
  intros Hp [-> | (px & py & -> & HPr)] HQ H.
  - cbn in H. injection H as <-. exact HQ.
  - destruct HQ as [-> | (qx & qy & -> & HQr)].
    + cbn in H. injection H as <-. right. exists px, py. tauto.
    + destruct (pointAdd_affine_reduced (affine px py) (affine qx qy) R curve
                  Hp eq_refl eq_refl H)
        as [-> | HR]; [left; reflexivity | right; exact HR].
Qed.

(** Adding a proper affine point to anything gives a proper point. *)
Lemma pointAdd_affine_right (P R : Point) (curve : CurveParams) (qx qy : Z) :
  0 < curve.(p) ->
  0 <= qx < curve.(p) -> 0 <= qy < curve.(p) ->
  run (pointAdd P (affine qx qy) curve None) = Ok R ->
  proper curve R.
Proof.
  intros Hp Hqx Hqy H.
  destruct (isInfinity P) eqn:EP.
  - rewrite pointAdd_infinite_left in H by assumption.
    injection H as <-. right. exists qx, qy. tauto.
  - destruct (pointAdd_affine_reduced P (affine qx qy) R curve Hp EP
                eq_refl H)
      as [-> | HR]; [left; reflexivity | right; exact HR].
Qed.

Lemma multiply_turns_proper (curve : CurveParams) (chars : list ascii) :
  0 < curve.(p) ->
  forall (R N R' N' : Point),
    proper curve R -> proper curve N ->
    multiply_turns chars R N curve = Ok (R', N') ->
    proper curve R'.
Proof.
  intros Hp.
  induction chars as [| c rest IH]; intros R N R' N' HR HN H.
  - cbn in H. injection H as <- <-. exact HR.
  - cbn [multiply_turns] in H. unfold multiply_turn in H.
    destruct (Ascii.eqb c "1"%char).
    + destruct (run (pointAdd R N curve None)) as [R1 |] eqn:E1;
        cbn [bind] in H; [| discriminate].
      destruct (run (pointAdd N N curve None)) as [N1 |] eqn:E2;
        cbn [bind fst snd] in H; [| discriminate].
      apply (IH R1 N1 R' N'); [| | exact H].
      * exact (pointAdd_proper R N R1 curve Hp HR HN E1).
      * exact (pointAdd_proper N N N1 curve Hp HN HN E2).
    + cbn [bind] in H.
      destruct (run (pointAdd N N curve None)) as [N1 |] eqn:E2;
        cbn [bind fst snd] in H; [| discriminate].
      apply (IH R N1 R' N'); [exact HR | | exact H].
      exact (pointAdd_proper N N N1 curve Hp HN HN E2).
Qed.

Lemma pointMultiply_proper (k : Z) (P R : Point) (curve : CurveParams) :
  0 < curve.(p) ->
  proper curve P ->
  run (pointMultiply k P curve None) = Ok R ->
  proper curve R.
Proof.
  intros Hp HP H. unfold pointMultiply, run in H. rewrite bindM_emit in H.
  change (fst (pointMultiply_loop ?c ?n ?r ?m curve None ?s))
    with (run (pointMultiply_loop c n r m curve None)) in H.
  rewrite pointMultiply_loop_turns in H.
  destruct (multiply_turns _ infinity P curve) as [[R' N'] |] eqn:E;
    [| discriminate].
  cbn in H. injection H as <-.
  exact (multiply_turns_proper curve _ Hp infinity P R' N'
           (or_introl eq_refl) HP E).
Qed.

Lemma generateKeys_frame (curve : CurveParams) (st : DemoState) :
  fst (generateKeys curve st) = Ok tt
  /\ cipherC1 (snd (generateKeys curve st)) = cipherC1 st
  /\ decryptedPoint (snd (generateKeys curve st)) = decryptedPoint st.
Proof.
  unfold generateKeys. rewrite pointMultiply_None.
  destruct (run (pointMultiply (privKey st) (G curve) curve None));
    repeat split.
Qed.

Lemma handleEncrypt_frame (curve : CurveParams) (st : DemoState) :
  0 < curve.(p) -> proper curve curve.(G) ->
  decryptedPoint (snd (handleEncrypt curve st)) = decryptedPoint st
  /\ forall C1, cipherC1 (snd (handleEncrypt curve st)) = Some C1 ->
                cipherC1 st = Some C1 \/ proper curve C1.
Proof.
  intros Hp HG. unfold handleEncrypt. rewrite bindM_get.
  destruct (embeddedPoint st) as [Pm |]; [| split; [reflexivity | auto]].
  destruct (pubKey st) as [Q |]; [| split; [reflexivity | auto]].
  rewrite bindM_pointMultiply.
  destruct (run (pointMultiply (randomK st) (G curve) curve None))
    as [c1 |] eqn:E1; [| split; [reflexivity | auto]].
  rewrite bindM_pointMultiply.
  destruct (run (pointMultiply (randomK st) Q curve None)) as [S0 |];
    [| split; [reflexivity | auto]].
  rewrite bindM_pointAdd.
  destruct (run (pointAdd Pm S0 curve None)) as [c2 |];
    [| split; [reflexivity | auto]].
  unfold setCipherC1, setCipherC2, setEncryptLogs.
  rewrite !bindM_update. unfold update. cbn [snd cipherC1 decryptedPoint].
  split; [reflexivity |].
  intros C1 H. injection H as <-. right.
  exact (pointMultiply_proper _ _ c1 curve Hp HG E1).
Qed.

Lemma handleDecrypt_point (curve : CurveParams) (st : DemoState) :
  0 < curve.(p) ->
  (forall C1, cipherC1 st = Some C1 -> proper curve C1) ->
  (forall M0, decryptedPoint st = Some M0 -> proper curve M0) ->
  forall M0, decryptedPoint (snd (handleDecrypt curve st)) = Some M0 ->
             proper curve M0.
Proof.
  intros Hp HC1 Hold. unfold handleDecrypt. rewrite bindM_get.
  destruct (cipherC1 st) as [C1 |]; [| exact Hold].
  destruct (cipherC2 st) as [C2 |]; [| exact Hold].
  rewrite bindM_pointMultiply.
  destruct (run (pointMultiply (privKey st) C1 curve None)) as [S0 |] eqn:ES;
    [| exact Hold].
  pose proof (pointMultiply_proper _ _ S0 curve Hp (HC1 C1 eq_refl) ES) as HS.
  rewrite bindM_lift.
  destruct HS as [-> | (sx & sy & -> & Hsx & Hsy)]; [exact Hold |].
  cbn [affine y x isInfinity negate_y]. rewrite mod_pos by assumption.
  rewrite bindM_pointAdd.
  destruct (run (pointAdd C2 _ curve None)) as [M1 |] eqn:EM; [| exact Hold].
  assert (HM : proper curve M1).
  { apply (pointAdd_affine_right C2 M1 curve sx ((- sy) mod p curve) Hp Hsx);
      [apply Z.mod_pos_bound; assumption | exact EM]. }
  unfold setDecryptedPoint, setDecryptedMsg, setDecryptLogs.
  rewrite bindM_update.
  destruct (embeddingMethod st).
  - rewrite bindM_lift.
    destruct (unembedMessageKoblitz M1 20) as [m |].
    + rewrite !bindM_update. unfold update. cbn [snd decryptedPoint].
      intros M0 H. injection H as <-. exact HM.
    + cbn [snd decryptedPoint].
      intros M0 H. injection H as <-. exact HM.
  - rewrite !bindM_update. unfold update. cbn [snd decryptedPoint].
    intros M0 H. injection H as <-. exact HM.
Qed.

Lemma decrypted_point_is_proper_aux (curve : CurveParams) (d k : Z)
    (Pm M0 : Point) (how : method) :
  0 < curve.(p) -> proper curve curve.(G) ->
  decryptedPoint (snd (encrypt_then_decrypt curve (session d k Pm how)))
  = Some M0 ->
  proper curve M0.
Proof.
  intros Hp HG. unfold encrypt_then_decrypt.
  set (st0 := session d k Pm how).
  unfold bindM at 1.
  destruct (generateKeys_frame curve st0) as (Hk1 & Hk2 & Hk3).
  destruct (generateKeys curve st0) as [r1 st1]. cbn [fst snd] in *.
  subst r1.
  unfold bindM at 1.
  destruct (handleEncrypt_frame curve st1 Hp HG) as (He1 & He2).
  destruct (handleEncrypt curve st1) as [[[] | e] st2]; cbn [fst snd] in *.
  - apply handleDecrypt_point; [exact Hp | |].
    + intros C1 HC1. destruct (He2 C1 HC1) as [Hc | Hc]; [| exact Hc].
      rewrite Hk2 in Hc. discriminate.
    + intros M1 HM1. rewrite He1, Hk3 in HM1. discriminate.
  - intros H. rewrite He1, Hk3 in H. discriminate.
Qed.

(** X18: Whatever the message point, the keys and the method, the point that
    key generation, [handleEncrypt] and [handleDecrypt] leave as decrypted
    point is the literal point at infinity or has both coordinates in
    [[0, p)] (for a positive modulus and a generator of that form). A
    message point that is not of that form is therefore never recovered. *)
Theorem decrypted_point_is_proper (curve : CurveParams) (d k : Z)
    (Pm M0 : Point) (how : method) :
  0 < curve.(p) -> proper curve curve.(G) ->
  decryptedPoint (snd (encrypt_then_decrypt curve (session d k Pm how)))
  = Some M0 ->
  proper curve M0 /\ (~ proper curve Pm -> M0 <> Pm).
Proof.
  intros Hp HG H.
  pose proof (decrypted_point_is_proper_aux curve d k Pm M0 how Hp HG H) as HM.
  split; [exact HM |]. intros HPm ->. exact (HPm HM).
Qed.

Lemma decrypted_point_is_proper_witness :
  proper TOY_CURVE (affine 10 9)
  /\ (~ proper TOY_CURVE (affine 241 9) -> affine 10 9 <> affine 241 9).
Proof.
  apply (decrypted_point_is_proper TOY_CURVE 15 7 (affine 241 9) (affine 10 9)
           koblitz).
  - cbn. lia.
  - right. exists 2, 4. cbn. repeat split; lia.
  - vm_compute. reflexivity.
Defined.

(** X19: Messages too large for the modulus are lost: when [20 * m >= p], the
    Koblitz embedding of [m] has [x >= p], so after key generation,
    encryption and decryption the decrypted point is never the embedded
    point, and un-embedding it gives a message strictly below [m]. *)
Theorem large_messages_are_lost (curve : CurveParams) (d k m : Z)
    (Pm : Point) :
  0 < curve.(p) -> proper curve curve.(G) ->
  0 <= m -> curve.(p) <= m * 20 ->
  embedMessageKoblitz m curve 20 = Ok Pm ->
  decryptedPoint (snd (encrypt_then_decrypt curve (session d k Pm koblitz)))
  <> Some Pm
  /\ forall M0 m',
       decryptedPoint
         (snd (encrypt_then_decrypt curve (session d k Pm koblitz))) = Some M0 ->
       unembedMessageKoblitz M0 20 = Ok m' ->
       m' < m.
Proof.
  intros Hp HG Hm Hlarge Hembed.
  apply embedMessageKoblitz_loop_ok in Hembed.
  destruct Hembed as (j & y0 & Hj & ->).
  assert (Himproper : ~ proper curve (mkPoint (Some (m * 20 + j)) (Some y0) false)).
  { intros [E | (px & py & E & Hpx & _)]; [discriminate |].
    injection E as <- <-. lia. }
  split.
  - intros H.
    exact (Himproper
             (decrypted_point_is_proper_aux curve d k _ _ koblitz Hp HG H)).
  - intros M0 m' H Hun.
    pose proof (decrypted_point_is_proper_aux curve d k _ _ koblitz Hp HG H)
      as [-> | (px & py & -> & Hpx & _)]; [discriminate |].
    cbn in Hun. injection Hun as <-.
    rewrite Z.quot_div_nonneg by lia.
    apply Z.div_lt_upper_bound; lia.
Qed.

Lemma large_messages_are_lost_witness :
  decryptedPoint
    (snd (encrypt_then_decrypt TOY_CURVE (session 15 7 (affine 241 9) koblitz)))
  <> Some (affine 241 9)
  /\ forall M0 m',
       decryptedPoint
         (snd (encrypt_then_decrypt TOY_CURVE
                 (session 15 7 (affine 241 9) koblitz))) = Some M0 ->
       unembedMessageKoblitz M0 20 = Ok m' ->
       m' < 12.
Proof.
  apply (large_messages_are_lost TOY_CURVE 15 7 12 (affine 241 9)).
  - cbn. lia.
  - right. exists 2, 4. cbn. repeat split; lia.
  - lia.
  - cbn. lia.
  - vm_compute. reflexivity.
Defined.

(** ** The handlers of the playground and of the embedding step *)

Lemma feed_logCapture (lines : list string) :
  forall st,
    feed (Some logCapture) lines st
    = setLogs (fun prev => app prev lines) st.
Proof.
  induction lines as [| l lines IH]; intros st.
  - destruct st. unfold setLogs. cbn. rewrite app_nil_r. reflexivity.
  - change (feed (Some logCapture) (l :: lines) st)
      with (feed (Some logCapture) lines (logCapture l st)).
    rewrite IH. destruct st. unfold logCapture, setLogs. cbn.
    rewrite <- app_assoc. reflexivity.
Qed.

Lemma pointMultiply_feed {Obs : Type} (k : Z) (P : Point)
    (curve : CurveParams) (log : callback Obs) (st : Obs) :
  pointMultiply k P curve log st
  = (run (pointMultiply k P curve None),
     feed log (lines_of (pointMultiply k P curve collect)) st).
Proof.
  unfold pointMultiply, run, lines_of. rewrite !bindM_emit.
  rewrite (pointMultiply_loop_feed curve _ Obs log).
  rewrite (pointMultiply_loop_feed curve _ (list string) collect).
  cbn [fst snd]. rewrite feed_collect. reflexivity.
Qed.

(** X20: The two handlers of [PointPlayground], once the text inputs convert to
    bigints (whatever the conversion is): the log panel is emptied and then
    holds exactly the trace of the computation, followed by one line with
    the message of the exception if there was one; the result is shown
    exactly when the computation returned; the inputs are untouched. If an
    input does not convert, the panel holds the message of that failure
    only and no result is shown. *)
Theorem playground_shows_the_trace
    (BigInt : string -> conversion) (RANGE TYPE : string)
    (curve : CurveParams) (st : PlaygroundState) :
  (forall vx vy k,
      BigInt st.(px) = Converted vx -> BigInt st.(py) = Converted vy ->
      BigInt st.(scalar) = Converted k ->
      let P := mkPoint (Some vx) (Some vy) false in
      let trace := lines_of (pointMultiply k P curve collect) in
      handleScalarMult BigInt RANGE TYPE curve st
      = match run (pointMultiply k P curve None) with
        | Ok R => mkPlayground st.(scalar) st.(px) st.(py) st.(qx) st.(qy)
                               trace (Some R)
        | Throw e =>
            mkPlayground st.(scalar) st.(px) st.(py) st.(qx) st.(qy)
                         (app trace ["错误: " ++ message_of RANGE TYPE e])
                         None
        end)
  /\ (forall vx vy wx wy,
        BigInt st.(px) = Converted vx -> BigInt st.(py) = Converted vy ->
        BigInt st.(qx) = Converted wx -> BigInt st.(qy) = Converted wy ->
        let P := mkPoint (Some vx) (Some vy) false in
        let Q := mkPoint (Some wx) (Some wy) false in
        let trace := lines_of (pointAdd P Q curve collect) in
        handlePointAdd BigInt RANGE TYPE curve st
        = match run (pointAdd P Q curve None) with
          | Ok R => mkPlayground st.(scalar) st.(px) st.(py) st.(qx) st.(qy)
                                 trace (Some R)
          | Throw e =>
              mkPlayground st.(scalar) st.(px) st.(py) st.(qx) st.(qy)
                           (app trace ["错误: " ++ message_of RANGE TYPE e])
                           None
          end)
  /\ (forall message,
        BigInt st.(px) = NotConverted message ->
        handleScalarMult BigInt RANGE TYPE curve st
        = mkPlayground st.(scalar) st.(px) st.(py) st.(qx) st.(qy)
                       ["错误: " ++ message] None
        /\ handlePointAdd BigInt RANGE TYPE curve st
           = mkPlayground st.(scalar) st.(px) st.(py) st.(qx) st.(qy)
                          ["错误: " ++ message] None).
Proof.
  split; [| split].
  - intros vx vy k Hx Hy Hk P trace. unfold handleScalarMult.
    rewrite Hx, Hy, Hk. fold P.
    rewrite pointMultiply_feed, feed_logCapture. fold trace.
    destruct (run (pointMultiply k P curve None)); destruct st; reflexivity.
  - intros vx vy wx wy Hx Hy Hqx Hqy P Q trace. unfold handlePointAdd.
    rewrite Hx, Hy, Hqx, Hqy. fold P Q.
    rewrite pointAdd_feed, feed_logCapture. fold trace.
    destruct (run (pointAdd P Q curve None)); destruct st; reflexivity.
  - intros message Hx. unfold handleScalarMult, handlePointAdd.
    rewrite Hx. destruct st. split; reflexivity.
Qed.

Lemma playground_shows_the_trace_witness :
  let BigInt := fun text : string =>
                  if String.eqb text "2" then Converted 2
                  else if String.eqb text "4" then Converted 4
                  else if String.eqb text "5" then Converted 5
                  else NotConverted "SyntaxError" in
  let st := mkPlayground "5" "2" "4" "2" "4" ["old"] (Some infinity) in
  handleScalarMult BigInt "range" "type" TOY_CURVE st
  = mkPlayground "5" "2" "4" "2" "4"
      (lines_of (pointMultiply 5 (affine 2 4) TOY_CURVE collect))
      (Some (affine 3 5))
  /\ handlePointAdd BigInt "range" "type" TOY_CURVE
       (mkPlayground "5" "x" "4" "2" "4" ["old"] (Some infinity))
     = mkPlayground "5" "x" "4" "2" "4" ["错误: SyntaxError"] None.
Proof.
  intros BigInt st. split.
  - apply (proj1 (playground_shows_the_trace BigInt "range" "type"
                    TOY_CURVE st) 2 4 5); reflexivity.
  - apply (proj2 (proj2 (playground_shows_the_trace BigInt "range" "type"
                           TOY_CURVE
                           (mkPlayground "5" "x" "4" "2" "4" ["old"]
                                         (Some infinity))))
             "SyntaxError").
    reflexivity.
Defined.


